(** * Validation spawners of [validator/validator_spawner.go]

    A shallow embedding of the one-shot result future ([readyMarker],
    [valRun]), of the two spawner backends ([ArbitratorSpawner],
    [JitSpawner]), of the replay loop ([loadEntryToMachine], [execute]),
    of the challenge-backend constructor and of the artifact exporter
    ([WriteToFile]), together with the properties the specification
    states about them.

    Conventions.  A Go [error] value is an [option error] ([None] is
    [nil]).  Fixed-width integers are [Z] with the wrap-around written
    out.  A method [T.m] is the definition [T_m].  The arbitrator machine,
    the machine loaders and the stop-waiter are defined elsewhere in the
    repository: they appear as interfaces (type classes), and the mock
    machine further down instantiates them. *)

From stdpp Require Import gmap strings list fin_maps pretty.
From Stdlib Require Import ZArith Lia.

Local Open Scope Z_scope.

(** ** Machine integers *)

Definition wrap_int32 (z : Z) : Z := (z + 2^31) mod 2^32 - 2^31.
Definition wrap_int (z : Z) : Z := (z + 2^63) mod 2^64 - 2^63.
Definition wrap_uint64 (z : Z) : Z := z mod 2^64.

Definition max_int32 : Z := 2^31 - 1.
Definition min_int : Z := - 2^63.
Definition max_int : Z := 2^63 - 1.

(** ** Data model *)

(** [common.Hash] is a 32-byte array, read here as a number. *)
Definition Hash := N.

(** A byte is a [Z] in [0, 256). *)
Definition bytes := list Z.

Inductive error : Type :=
| errors_New (msg : string)
| fmt_Errorf (msg : string) (inner : error).
(* [fmt_Errorf msg inner] is [fmt.Errorf(msg + ": %w", inner)]. *)

Record GoGlobalState := {
  BlockHash : Hash;
  Batch : Z;
  PosInBatch : Z
}.

(** [GoGlobalState{}] *)
Definition GoGlobalState_zero : GoGlobalState :=
  {| BlockHash := 0%N; Batch := 0; PosInBatch := 0 |}.

Record BatchInfo := {
  Number : Z;
  Data : bytes
}.

Record ValidationInput := {
  Id : Z;
  HasDelayedMsg : bool;
  DelayedMsgNr : Z;
  Preimages : gmap N bytes;
  BatchInfos : list BatchInfo;
  DelayedMsg : bytes;
  StartState : GoGlobalState
}.

(** [context.Context], as far as this file observes it: [ctx.Err()],
    which is non-nil exactly when [ctx.Done()] is closed. *)
Record context_Context := {
  ctx_Err : option error
}.

Definition ctx_Done (ctx : context_Context) : bool :=
  match ctx_Err ctx with Some _ => true | None => false end.

Definition context_Canceled : error := errors_New "context canceled".

Definition context_Background : context_Context := {| ctx_Err := None |}.

(** ** The one-shot future *)

Record readyMarker := {
  chanReady : bool;        (* [true] once the channel is closed *)
  boolReady : Z;
  err : option error
}.

Record valRun := {
  marker : readyMarker;
  root : Hash;
  result : GoGlobalState
}.

Definition ErrNotReady : error := errors_New "not ready".

Definition readyMarker_Ready (d : readyMarker) : bool :=
  negb (boolReady d =? 0).

(** What a call that may panic leaves behind. *)
Inductive outcome (A : Type) : Type :=
| Normal (a : A)
| Panic (msg : string) (a : A).
Arguments Normal {A} a.
Arguments Panic {A} msg a.

(** [select] over [<-d.chanReady] and [<-ctx.Done()]: a receive from a
    closed channel is ready, from an open one it is not.  With both ready
    Go picks either; with none ready the call stays blocked, and no
    constructor applies.  The last argument is the marker the call leaves
    behind. *)
Inductive readyMarker_WaitReady (d : readyMarker) (ctx : context_Context)
  : option error -> readyMarker -> Prop :=
| WaitReady_chanReady :
    chanReady d = true -> readyMarker_WaitReady d ctx (err d) d
| WaitReady_ctxDone :
    ctx_Done ctx = true -> readyMarker_WaitReady d ctx (ctx_Err ctx) d.

(** [close] of a closed channel panics, after the two stores. *)
Definition readyMarker_signalReady (e : option error) (d : readyMarker)
  : outcome readyMarker :=
  let d1 := {| chanReady := chanReady d; boolReady := boolReady d; err := e |} in
  let d2 := {| chanReady := chanReady d1; boolReady := 1; err := err d1 |} in
  if chanReady d2
  then Panic "close of closed channel" d2
  else Normal {| chanReady := true; boolReady := boolReady d2; err := err d2 |}.

Definition newReadyMarker : readyMarker :=
  {| chanReady := false; boolReady := 0; err := None |}.

Definition valRun_Ready (r : valRun) : bool := readyMarker_Ready (marker r).

Definition valRun_Result (r : valRun) : GoGlobalState * option error :=
  if negb (valRun_Ready r)
  then (GoGlobalState_zero, Some ErrNotReady)
  else (result r, err (marker r)).

Definition valRun_WasmModuleRoot (r : valRun) : Hash := root r.

Definition NewvalRun (rt : Hash) : valRun :=
  {| marker := newReadyMarker; root := rt; result := GoGlobalState_zero |}.

Definition with_marker (r : valRun) (d : readyMarker) : valRun :=
  {| marker := d; root := root r; result := result r |}.

Definition valRun_consumeResult (res : GoGlobalState) (e : option error)
  (r : valRun) : outcome valRun :=
  let r1 := {| marker := marker r; root := root r; result := res |} in
  match readyMarker_signalReady e (marker r1) with
  | Normal d => Normal (with_marker r1 d)
  | Panic msg d => Panic msg (with_marker r1 d)
  end.

(** ** The arbitrator machine, as the replay code uses it *)

Definition GoPreimageResolver := Hash -> bytes + error.

Class ArbitratorMachine (M : Type) := {
  Clone : M -> M;
  Destroy : M -> M;
  Freeze : M -> M;
  SetPreimageResolver : GoPreimageResolver -> M -> option error * M;
  SetGlobalState : GoGlobalState -> M -> option error * M;
  AddSequencerInboxMessage : Z -> bytes -> M -> option error * M;
  AddDelayedInboxMessage : Z -> bytes -> M -> option error * M;
  IsRunning : M -> bool;
  IsErrored : M -> bool;
  Step : context_Context -> Z -> M -> option error * M;
  GetGlobalState : M -> GoGlobalState
}.

(** [ArbMachineLoader]: both lookups, by module root. *)
Class ArbMachineLoader (M : Type) := {
  GetHostIoMachine : context_Context -> Hash -> M + error;
  GetZeroStepMachine : context_Context -> Hash -> M + error
}.

(** Calls made on the cloned machine and log lines, in program order. *)
Inductive Call : Type :=
| CClone
| CDestroy
| CFreeze
| CSetPreimageResolver
| CSetGlobalState (gs : GoGlobalState)
| CAddSequencerInboxMessage (n : Z) (d : bytes)
| CAddDelayedInboxMessage (n : Z) (d : bytes)
| CStep (count : Z)
| CNewExecutionChallengeBackend (target : Z).

Inductive Event : Type :=
| EvCall (c : Call) (e : option error)
| EvLogError (msg : string)
| EvLogDebug (steps : Z).

(** The closure [resolver] of [loadEntryToMachine] and [JitSpawner.execute]. *)
Definition preimageResolver (entry : ValidationInput) : GoPreimageResolver :=
  fun hash =>
    match Preimages entry !! hash with
    | Some preimage => inl preimage
    | None => inr (errors_New "preimage not found")
    end.

Section Replay.
Context {M : Type} `{ArbitratorMachine M} `{ArbMachineLoader M}.

(** The machine under replay and the events so far. *)
Definition mstate : Type := M * list Event.

Definition call {A : Type} (c : Call) (errOf : A -> option error)
  (op : M -> A * M) (s : mstate) : A * mstate :=
  let '(a, m) := op (fst s) in (a, (m, snd s ++ [EvCall c (errOf a)])).

Definition logError (msg : string) (s : mstate) : mstate :=
  (fst s, snd s ++ [EvLogError msg]).

Definition logDebug (steps : Z) (s : mstate) : mstate :=
  (fst s, snd s ++ [EvLogDebug steps]).

(** [for _, batch := range entry.BatchInfo] *)
Fixpoint feedBatches (batches : list BatchInfo) (s : mstate)
  : option error * mstate :=
  match batches with
  | [] => (None, s)
  | batch :: rest =>
    let '(e, s) := call (CAddSequencerInboxMessage (Number batch) (Data batch)) id
                     (AddSequencerInboxMessage (Number batch) (Data batch)) s in
    match e with
    | Some e =>
      let s := logError "error while trying to add sequencer msg for proving" s in
      (Some (fmt_Errorf "error while trying to add sequencer msg for proving" e), s)
    | None => feedBatches rest s
    end
  end.

Definition ArbitratorSpawner_loadEntryToMachine (ctx : context_Context)
  (entry : ValidationInput) (s : mstate) : option error * mstate :=
  let resolver := preimageResolver entry in
  let '(e, s) := call CSetPreimageResolver id (SetPreimageResolver resolver) s in
  match e with
  | Some e => (Some e, s)
  | None =>
    let '(e, s) := call (CSetGlobalState (StartState entry)) id
                     (SetGlobalState (StartState entry)) s in
    match e with
    | Some e =>
      let s := logError "error while setting global state for proving" s in
      (Some (fmt_Errorf "error while setting global state for proving" e), s)
    | None =>
      let '(e, s) := feedBatches (BatchInfos entry) s in
      match e with
      | Some e => (Some e, s)
      | None =>
        if HasDelayedMsg entry then
          let '(e, s) := call (CAddDelayedInboxMessage (DelayedMsgNr entry) (DelayedMsg entry)) id
                           (AddDelayedInboxMessage (DelayedMsgNr entry) (DelayedMsg entry)) s in
          match e with
          | Some e =>
            let s := logError "error while trying to add delayed msg for proving" s in
            (Some (fmt_Errorf "error while trying to add delayed msg for proving" e), s)
          | None => (None, s)
          end
        else (None, s)
      end
    end
  end.

(** How the [for mach.IsRunning()] loop of [execute] is left. *)
Inductive loop_exit : Type :=
| LoopStopped
| LoopStepError (e : error).

Definition stepCount : Z := 500000000.

(** The loop, bounded by [fuel] iterations; [None] when the machine is
    still running after that many. *)
Fixpoint stepLoop (fuel : nat) (ctx : context_Context) (steps : Z) (s : mstate)
  : option (loop_exit * mstate) :=
  if IsRunning (fst s) then
    match fuel with
    | O => None
    | S fuel =>
      let count := stepCount in
      let '(e, s) := call (CStep count) id (Step ctx count) s in
      let s := if 0 <? steps then logDebug steps s else s in
      match e with
      | Some e => Some (LoopStepError e, s)
      | None => stepLoop fuel ctx (wrap_uint64 (steps + count)) s
      end
    end
  else Some (LoopStopped, s).

(** The body of [execute] after [defer mach.Destroy()]. *)
Definition execute_body (fuel : nat) (ctx : context_Context)
  (entry : ValidationInput) (s : mstate)
  : option ((GoGlobalState * option error) * mstate) :=
  let '(e, s) := ArbitratorSpawner_loadEntryToMachine ctx entry s in
  match e with
  | Some e => Some ((GoGlobalState_zero, Some e), s)
  | None =>
    match stepLoop fuel ctx 0 s with
    | None => None
    | Some (LoopStepError e, s) =>
      Some ((GoGlobalState_zero,
             Some (fmt_Errorf "machine execution failed with error" e)), s)
    | Some (LoopStopped, s) =>
      if IsErrored (fst s) then
        let s := logError "machine entered errored state during attempted validation" s in
        Some ((GoGlobalState_zero,
               Some (errors_New "machine entered errored state during attempted validation")), s)
      else Some ((GetGlobalState (fst s), None), s)
    end
  end.

(** [ArbitratorSpawner.execute]: the result and the events of the run. *)
Definition ArbitratorSpawner_execute (fuel : nat) (ctx : context_Context)
  (entry : ValidationInput) (moduleRoot : Hash)
  : option ((GoGlobalState * option error) * list Event) :=
  match GetHostIoMachine ctx moduleRoot with
  | inr e =>
    Some ((GoGlobalState_zero, Some (fmt_Errorf "unabled to get WASM machine" e)), [])
  | inl basemachine =>
    let s := (Clone basemachine, [EvCall CClone None]) in
    match execute_body fuel ctx entry s with
    | None => None
    | Some (r, s) =>
      let s := call CDestroy (fun _ => None) (fun m => (tt, Destroy m)) s in
      Some (r, snd (snd s))
    end
  end.

End Replay.

(** ** The challenge-backend constructor *)

Class ChallengeBackend (M B : Type) := {
  NewExecutionChallengeBackend : M -> Z -> B + error
}.

Section CreateBackend.
Context {M B : Type} `{ArbitratorMachine M} `{ArbMachineLoader M}
        `{ChallengeBackend M B}.

(** [ArbitratorSpawner.CreateExecutionBackend], with the events of the
    call; [targetMachineCount] is [v.config().TargetMachineCount]. *)
Definition ArbitratorSpawner_CreateExecutionBackend (targetMachineCount : Z)
  (ctx : context_Context) (wasmModuleRoot : Hash) (input : ValidationInput)
  : (option B * option error) * list Event :=
  match GetZeroStepMachine ctx wasmModuleRoot with
  | inr e => ((None, Some e), [])
  | inl initialFrozenMachine =>
    let s : mstate := (Clone initialFrozenMachine, [EvCall CClone None]) in
    let '(e, s) := ArbitratorSpawner_loadEntryToMachine ctx input s in
    match e with
    | Some e => ((None, Some e), snd s)
    | None =>
      let '(_, s) := call CFreeze (fun _ => None) (fun m => (tt, Freeze m)) s in
      let r := NewExecutionChallengeBackend (fst s) targetMachineCount in
      let e := match r with inl _ => None | inr e => Some e end in
      let tr := snd s ++ [EvCall (CNewExecutionChallengeBackend targetMachineCount) e] in
      match r with
      | inl b => ((Some b, None), tr)
      | inr e => ((None, Some e), tr)
      end
    end
  end.

End CreateBackend.

(** ** The JIT machine loader *)

(** [prove] may wait for its helper process without bound: [None] stands
    for a call that does not return. *)
Class JitMachineLoader (JM : Type) := {
  GetMachine : context_Context -> Hash -> JM + error;
  prove : JM -> context_Context -> ValidationInput -> GoPreimageResolver
          -> option (GoGlobalState * option error)
}.

Section JitExecute.
Context {JM : Type} `{JitMachineLoader JM}.

Definition JitSpawner_execute (ctx : context_Context) (entry : ValidationInput)
  (moduleRoot : Hash) : option (GoGlobalState * option error) :=
  let empty := GoGlobalState_zero in
  match GetMachine ctx moduleRoot with
  | inr e => Some (empty, Some (fmt_Errorf "unabled to get WASM machine" e))
  | inl machine =>
    let resolver := preimageResolver entry in
    prove machine ctx entry resolver
  end.

End JitExecute.

(** ** Spawners *)

(** [stopwaiter.StopWaiter], as the spawners use it.  [StopWaiter_Start]
    gives [None] when the call does not return normally. *)
Class StopWaiter (SW : Type) := {
  StopWaiter_Start : context_Context -> SW -> option SW;
  StopWaiter_Started : SW -> bool;
  StopWaiter_StopOnly : SW -> SW;
  StopWaiter_GetContext : SW -> context_Context
}.

Record ArbitratorSpawnerConfig := {
  ConcurrentRuns : Z;
  OutputPath : string;
  TargetMachineCount : Z
}.

Definition DefaultArbitratorSpawnerConfig : ArbitratorSpawnerConfig :=
  {| ConcurrentRuns := 0; OutputPath := "./target/output"; TargetMachineCount := 4 |}.

Record JitSpawnerConfig := {
  JitConcurrentRuns : Z;
  Cranelift : bool
}.

Definition DefaultJitSpawnerConfig : JitSpawnerConfig :=
  {| JitConcurrentRuns := 0; Cranelift := true |}.

Record ArbitratorSpawner (SW : Type) := {
  arb_StopWaiter : SW;
  arb_count : Z;
  arb_config : ArbitratorSpawnerConfig
}.
Arguments arb_StopWaiter {SW} _.
Arguments arb_count {SW} _.
Arguments arb_config {SW} _.

Record JitSpawner (SW : Type) := {
  jit_StopWaiter : SW;
  jit_count : Z;
  jit_config : JitSpawnerConfig;
  jit_loaderStopped : bool
}.
Arguments jit_StopWaiter {SW} _.
Arguments jit_count {SW} _.
Arguments jit_config {SW} _.
Arguments jit_loaderStopped {SW} _.

Inductive Backend : Type := Arbitrator | Jit.

Global Instance Backend_eq_dec : EqDecision Backend.
Proof. solve_decision. Defined.

(** Where the goroutine started by [Launch] stands: before
    [run.consumeResult], between it and the deferred decrement, or done. *)
Inductive pc : Type := Running | Resolved | Exited.

Global Instance pc_eq_dec : EqDecision pc.
Proof. solve_decision. Defined.

Record Goroutine := {
  g_backend : Backend;
  g_run : nat;                (* the [*valRun] the closure captured *)
  g_entry : ValidationInput;
  g_root : Hash;
  g_pc : pc
}.

Definition set_pc (p : pc) (g : Goroutine) : Goroutine :=
  {| g_backend := g_backend g; g_run := g_run g; g_entry := g_entry g;
     g_root := g_root g; g_pc := p |}.

(** Both spawners, the [valRun] objects allocated so far (a pointer is an
    index) and the goroutines started so far. *)
Record World (SW : Type) := {
  arb : ArbitratorSpawner SW;
  jit : JitSpawner SW;
  heap : list valRun;
  pool : list Goroutine
}.
Arguments arb {SW} _.
Arguments jit {SW} _.
Arguments heap {SW} _.
Arguments pool {SW} _.

Section Spawners.
Context {SW : Type} `{StopWaiter SW}.
Variable runtime_NumCPU : Z.

Definition arb_set_count (c : Z) (v : ArbitratorSpawner SW) : ArbitratorSpawner SW :=
  {| arb_StopWaiter := arb_StopWaiter v; arb_count := c; arb_config := arb_config v |}.

Definition arb_set_StopWaiter (sw : SW) (v : ArbitratorSpawner SW) : ArbitratorSpawner SW :=
  {| arb_StopWaiter := sw; arb_count := arb_count v; arb_config := arb_config v |}.

Definition jit_set_count (c : Z) (v : JitSpawner SW) : JitSpawner SW :=
  {| jit_StopWaiter := jit_StopWaiter v; jit_count := c; jit_config := jit_config v;
     jit_loaderStopped := jit_loaderStopped v |}.

Definition jit_set_StopWaiter (sw : SW) (v : JitSpawner SW) : JitSpawner SW :=
  {| jit_StopWaiter := sw; jit_count := jit_count v; jit_config := jit_config v;
     jit_loaderStopped := jit_loaderStopped v |}.

(** [atomic.AddInt32(&v.count, delta)] *)
Definition atomic_AddInt32 (c delta : Z) : Z := wrap_int32 (c + delta).

Definition ArbitratorSpawner_Start (ctx_in : context_Context)
  (s : ArbitratorSpawner SW) : option (ArbitratorSpawner SW) :=
  if negb (StopWaiter_Started (arb_StopWaiter s))
  then match StopWaiter_Start ctx_in (arb_StopWaiter s) with
       | Some sw => Some (arb_set_StopWaiter sw s)
       | None => None
       end
  else Some s.

Definition JitSpawner_Start (ctx_in : context_Context)
  (v : JitSpawner SW) : option (JitSpawner SW) :=
  match StopWaiter_Start ctx_in (jit_StopWaiter v) with
  | Some sw => Some (jit_set_StopWaiter sw v)
  | None => None
  end.

Definition ArbitratorSpawner_Stop (v : ArbitratorSpawner SW) : ArbitratorSpawner SW :=
  arb_set_StopWaiter (StopWaiter_StopOnly (arb_StopWaiter v)) v.

Definition JitSpawner_Stop (v : JitSpawner SW) : JitSpawner SW :=
  {| jit_StopWaiter := StopWaiter_StopOnly (jit_StopWaiter v);
     jit_count := jit_count v; jit_config := jit_config v;
     jit_loaderStopped := true |}.

Definition ArbitratorSpawner_Name (s : ArbitratorSpawner SW) : string := "arbitrator".

Definition JitSpawner_Name (s : JitSpawner SW) : string :=
  if Cranelift (jit_config s) then "jit-cranelift" else "jit".

Definition ArbitratorSpawner_Room (v : ArbitratorSpawner SW) : Z :=
  let avail := ConcurrentRuns (arb_config v) in
  let avail := if avail =? 0 then runtime_NumCPU else avail in
  wrap_int (avail - arb_count v).

Definition JitSpawner_Room (v : JitSpawner SW) : Z :=
  let avail := JitConcurrentRuns (jit_config v) in
  let avail := if avail =? 0 then runtime_NumCPU else avail in
  wrap_int (avail - jit_count v).

(** Modelled from the spec: [StopWaiter.LaunchThread] and the [go]
    statement, which are defined outside this source file.  Each starts one
    independent task bound to the spawner's lifecycle context and
    returns at once; the task is recorded in the pool and runs later. *)
Definition LaunchThread (g : Goroutine) (p : list Goroutine) : list Goroutine :=
  p ++ [g].

Definition ArbitratorSpawner_Launch (entry : ValidationInput) (moduleRoot : Hash)
  (w : World SW) : World SW * nat :=
  let v := arb_set_count (atomic_AddInt32 (arb_count (arb w)) 1) (arb w) in
  let run := length (heap w) in
  let h := heap w ++ [NewvalRun moduleRoot] in
  let p := LaunchThread {| g_backend := Arbitrator; g_run := run; g_entry := entry;
                           g_root := moduleRoot; g_pc := Running |} (pool w) in
  ({| arb := v; jit := jit w; heap := h; pool := p |}, run).

Definition JitSpawner_Launch (entry : ValidationInput) (moduleRoot : Hash)
  (w : World SW) : World SW * nat :=
  let v := jit_set_count (atomic_AddInt32 (jit_count (jit w)) 1) (jit w) in
  let run := length (heap w) in
  let h := heap w ++ [NewvalRun moduleRoot] in
  let p := LaunchThread {| g_backend := Jit; g_run := run; g_entry := entry;
                           g_root := moduleRoot; g_pc := Running |} (pool w) in
  ({| arb := arb w; jit := v; heap := h; pool := p |}, run).

Definition Launch (b : Backend) (entry : ValidationInput) (moduleRoot : Hash)
  (w : World SW) : World SW * nat :=
  match b with
  | Arbitrator => ArbitratorSpawner_Launch entry moduleRoot w
  | Jit => JitSpawner_Launch entry moduleRoot w
  end.

Definition count_of (b : Backend) (w : World SW) : Z :=
  match b with
  | Arbitrator => arb_count (arb w)
  | Jit => jit_count (jit w)
  end.

Definition Room (b : Backend) (w : World SW) : Z :=
  match b with
  | Arbitrator => ArbitratorSpawner_Room (arb w)
  | Jit => JitSpawner_Room (jit w)
  end.

(** The configured limit, with the host's parallelism for zero. *)
Definition limit_of (b : Backend) (w : World SW) : Z :=
  let c := match b with
           | Arbitrator => ConcurrentRuns (arb_config (arb w))
           | Jit => JitConcurrentRuns (jit_config (jit w))
           end in
  if c =? 0 then runtime_NumCPU else c.

(** The deferred [atomic.AddInt32(&v.count, -1)]. *)
Definition decrement (b : Backend) (w : World SW) : World SW :=
  match b with
  | Arbitrator =>
    {| arb := arb_set_count (atomic_AddInt32 (arb_count (arb w)) (-1)) (arb w);
       jit := jit w; heap := heap w; pool := pool w |}
  | Jit =>
    {| arb := arb w;
       jit := jit_set_count (atomic_AddInt32 (jit_count (jit w)) (-1)) (jit w);
       heap := heap w; pool := pool w |}
  end.

Definition set_heap_pool (h : list valRun) (p : list Goroutine) (w : World SW) : World SW :=
  {| arb := arb w; jit := jit w; heap := h; pool := p |}.

Definition set_arb (v : ArbitratorSpawner SW) (w : World SW) : World SW :=
  {| arb := v; jit := jit w; heap := heap w; pool := pool w |}.

Definition set_jit (v : JitSpawner SW) (w : World SW) : World SW :=
  {| arb := arb w; jit := v; heap := heap w; pool := pool w |}.

(** Goroutines of backend [b] started so far, and those that have run
    their deferred decrement. *)
Definition launched (b : Backend) (p : list Goroutine) : nat :=
  length (filter (fun g => g_backend g = b) p).

Definition completed (b : Backend) (p : list Goroutine) : nat :=
  length (filter (fun g => g_backend g = b /\ g_pc g = Exited) p).

End Spawners.

(** ** The running system

    One transition per atomic action of the orchestrator and of the
    goroutines.  [Launch] is one action, and so is the goroutine body up to
    and including [run.consumeResult]: a goroutine writes only its own run. *)

Section System.
Context {M JM SW : Type} `{ArbitratorMachine M} `{ArbMachineLoader M}
        `{JitMachineLoader JM} `{StopWaiter SW}.

(** The results [v.execute] can return for the goroutine [g], under the
    lifecycle context of its spawner. *)
Inductive execute_of (w : World SW) (g : Goroutine)
  : GoGlobalState * option error -> Prop :=
| execute_of_arb fuel r tr :
    g_backend g = Arbitrator ->
    ArbitratorSpawner_execute (M := M) fuel
      (StopWaiter_GetContext (arb_StopWaiter (arb w))) (g_entry g) (g_root g)
      = Some (r, tr) ->
    execute_of w g r
| execute_of_jit r :
    g_backend g = Jit ->
    JitSpawner_execute (JM := JM)
      (StopWaiter_GetContext (jit_StopWaiter (jit w))) (g_entry g) (g_root g)
      = Some r ->
    execute_of w g r.

Definition resolve (i : nat) (g : Goroutine) (r' : valRun) (w : World SW) : World SW :=
  set_heap_pool (<[g_run g := r']> (heap w)) (<[i := set_pc Resolved g]> (pool w)) w.

Definition exit (i : nat) (g : Goroutine) (w : World SW) : World SW :=
  decrement (g_backend g)
    (set_heap_pool (heap w) (<[i := set_pc Exited g]> (pool w)) w).

Definition arb_set_config (c : ArbitratorSpawnerConfig) (v : ArbitratorSpawner SW)
  : ArbitratorSpawner SW :=
  {| arb_StopWaiter := arb_StopWaiter v; arb_count := arb_count v; arb_config := c |}.

Definition jit_set_config (c : JitSpawnerConfig) (v : JitSpawner SW) : JitSpawner SW :=
  {| jit_StopWaiter := jit_StopWaiter v; jit_count := jit_count v; jit_config := c;
     jit_loaderStopped := jit_loaderStopped v |}.

Inductive step : World SW -> World SW -> Prop :=
| step_Launch b entry moduleRoot w :
    step w (fst (Launch b entry moduleRoot w))
| step_resolve w i g r res e r' :
    pool w !! i = Some g ->
    g_pc g = Running ->
    heap w !! g_run g = Some r ->
    execute_of w g (res, e) ->
    valRun_consumeResult res e r = Normal r' ->
    step w (resolve i g r' w)
| step_exit w i g :
    pool w !! i = Some g ->
    g_pc g = Resolved ->
    step w (exit i g w)
| step_Start_arb ctx w v :
    ArbitratorSpawner_Start ctx (arb w) = Some v ->
    step w (set_arb v w)
| step_Start_jit ctx w v :
    JitSpawner_Start ctx (jit w) = Some v ->
    step w (set_jit v w)
| step_Stop_arb w :
    step w (set_arb (ArbitratorSpawner_Stop (arb w)) w)
| step_Stop_jit w :
    step w (set_jit (JitSpawner_Stop (jit w)) w)
| step_reload_arb c w :
    step w (set_arb (arb_set_config c (arb w)) w)
| step_reload_jit c w :
    step w (set_jit (jit_set_config c (jit w)) w).

(** [NewArbitratorSpawner] and [NewJitSpawner]: nothing launched yet. *)
Definition init_world (swa swj : SW) (ca : ArbitratorSpawnerConfig)
  (cj : JitSpawnerConfig) : World SW :=
  {| arb := {| arb_StopWaiter := swa; arb_count := 0; arb_config := ca |};
     jit := {| jit_StopWaiter := swj; jit_count := 0; jit_config := cj;
               jit_loaderStopped := false |};
     heap := []; pool := [] |}.

Definition initial (w : World SW) : Prop :=
  exists swa swj ca cj, w = init_world swa swj ca cj.

Definition reachable (w : World SW) : Prop :=
  exists w0, initial w0 /\ rtc step w0 w.

End System.

(** ** A mock machine, a mock loader and a stop-waiter *)

Record Mock := {
  mk_steps : list (option error);   (* what the next [Step] calls return *)
  mk_errored : bool;
  mk_gs : GoGlobalState;
  mk_resolver_err : option error;
  mk_setgs_err : option error;
  mk_reject_seq : option Z;         (* a batch number the machine refuses *)
  mk_delayed_err : option error;
  mk_destroyed : bool;
  mk_frozen : bool
}.

Definition mk_set_steps (l : list (option error)) (m : Mock) : Mock :=
  {| mk_steps := l; mk_errored := mk_errored m; mk_gs := mk_gs m;
     mk_resolver_err := mk_resolver_err m; mk_setgs_err := mk_setgs_err m;
     mk_reject_seq := mk_reject_seq m; mk_delayed_err := mk_delayed_err m;
     mk_destroyed := mk_destroyed m; mk_frozen := mk_frozen m |}.

Definition mk_set_flags (destroyed frozen : bool) (m : Mock) : Mock :=
  {| mk_steps := mk_steps m; mk_errored := mk_errored m; mk_gs := mk_gs m;
     mk_resolver_err := mk_resolver_err m; mk_setgs_err := mk_setgs_err m;
     mk_reject_seq := mk_reject_seq m; mk_delayed_err := mk_delayed_err m;
     mk_destroyed := destroyed; mk_frozen := frozen |}.

Global Instance Mock_machine : ArbitratorMachine Mock := {|
  Clone m := mk_set_flags false false m;
  Destroy m := mk_set_flags true (mk_frozen m) m;
  Freeze m := mk_set_flags (mk_destroyed m) true m;
  SetPreimageResolver _ m := (mk_resolver_err m, m);
  SetGlobalState _ m := (mk_setgs_err m, m);
  AddSequencerInboxMessage n _ m :=
    match mk_reject_seq m with
    | Some k => if n =? k then (Some (errors_New "bad sequencer message"), m) else (None, m)
    | None => (None, m)
    end;
  AddDelayedInboxMessage _ _ m := (mk_delayed_err m, m);
  IsRunning m := match mk_steps m with [] => false | _ => true end;
  IsErrored m := mk_errored m;
  Step ctx _ m :=
    match ctx_Err ctx with
    | Some e => (Some e, m)
    | None =>
      match mk_steps m with
      | [] => (None, m)
      | r :: rest => (r, mk_set_steps rest m)
      end
    end;
  GetGlobalState m := mk_gs m
|}.

Definition mock_final : GoGlobalState :=
  {| BlockHash := 3%N; Batch := 5; PosInBatch := 13 |}.

Definition mock_halted : Mock :=
  {| mk_steps := []; mk_errored := false; mk_gs := mock_final;
     mk_resolver_err := None; mk_setgs_err := None; mk_reject_seq := None;
     mk_delayed_err := None; mk_destroyed := false; mk_frozen := true |}.

Definition mock_with (steps : list (option error)) (errored : bool)
  (resolver_err setgs_err : option error) (reject : option Z)
  (delayed_err : option error) : Mock :=
  {| mk_steps := steps; mk_errored := errored; mk_gs := mock_final;
     mk_resolver_err := resolver_err; mk_setgs_err := setgs_err;
     mk_reject_seq := reject; mk_delayed_err := delayed_err;
     mk_destroyed := false; mk_frozen := true |}.

Definition mock_step_fault : error := errors_New "step failed".
Definition mock_frozen_err : error := errors_New "machine is frozen".

(** The mock loader serves one machine per module root. *)
Definition mock_base (moduleRoot : Hash) : Mock + error :=
  match moduleRoot with
  | 0%N => inr (errors_New "no machine for this module root")
  | 1%N => inl mock_halted
  | 2%N => inl (mock_with [None; Some mock_step_fault; None] false None None None None)
  | 3%N => inl (mock_with [None; None] true None None None None)
  | 4%N => inl (mock_with [] false (Some mock_frozen_err) None None None)
  | 5%N => inl (mock_with [] false None (Some (errors_New "bad state")) None None)
  | 6%N => inl (mock_with [] false None None (Some 6) None)
  | 7%N => inl (mock_with [] false None None None (Some (errors_New "bad delayed message")))
  | _ => inl (mock_with [None; None; None] false None None None None)
  end.

Global Instance Mock_loader : ArbMachineLoader Mock := {|
  GetHostIoMachine _ moduleRoot := mock_base moduleRoot;
  GetZeroStepMachine _ moduleRoot := mock_base moduleRoot
|}.

Global Instance Mock_backend : ChallengeBackend Mock Mock := {|
  NewExecutionChallengeBackend m _ := inl m
|}.

Definition mock_prove_err : error := errors_New "jit machine exited with failure".

Global Instance Mock_jit : JitMachineLoader unit := {|
  GetMachine _ moduleRoot :=
    match moduleRoot with
    | 0%N => inr (errors_New "no machine for this module root")
    | _ => inl tt
    end;
  prove _ _ entry _ :=
    if Id entry =? 0 then Some (GoGlobalState_zero, Some mock_prove_err)
    else Some (mock_final, None)
|}.

Record MockSW := {
  sw_started : bool;
  sw_parent : context_Context;
  sw_stopped : bool
}.

Definition MockSW_zero : MockSW :=
  {| sw_started := false; sw_parent := context_Background; sw_stopped := false |}.

(** Modelled from the spec: the stop-waiter of [util/stopwaiter], which is
    defined outside this source file.  A spawner is "constructed idle, Started
    to obtain a cancellable background-task context, Stopped to cancel
    that context": [Start] derives the lifecycle context from the context
    it is given, [StopOnly] cancels it. *)
Global Instance MockSW_StopWaiter : StopWaiter MockSW := {|
  StopWaiter_Start ctx _ :=
    Some {| sw_started := true; sw_parent := ctx; sw_stopped := false |};
  StopWaiter_Started sw := sw_started sw;
  StopWaiter_StopOnly sw :=
    {| sw_started := sw_started sw; sw_parent := sw_parent sw; sw_stopped := true |};
  StopWaiter_GetContext sw :=
    if sw_stopped sw then {| ctx_Err := Some context_Canceled |} else sw_parent sw
|}.

Definition mock_entry : ValidationInput :=
  {| Id := 42; HasDelayedMsg := false; DelayedMsgNr := 0;
     Preimages := {[ 2%N := [120; 121; 122] ]};
     BatchInfos := [ {| Number := 5; Data := [97; 98; 99] |} ];
     DelayedMsg := [];
     StartState := {| BlockHash := 1%N; Batch := 5; PosInBatch := 10 |} |}.

Definition mock_entry_delayed : ValidationInput :=
  {| Id := 43; HasDelayedMsg := true; DelayedMsgNr := 9;
     Preimages := {[ 2%N := [120; 121; 122] ]};
     BatchInfos := [ {| Number := 5; Data := [97; 98; 99] |};
                     {| Number := 6; Data := [100] |} ];
     DelayedMsg := [1; 2];
     StartState := {| BlockHash := 1%N; Batch := 5; PosInBatch := 10 |} |}.

Definition mock_world : World MockSW :=
  init_world MockSW_zero MockSW_zero DefaultArbitratorSpawnerConfig DefaultJitSpawnerConfig.

(** ** The artifact exporter *)

(** [binary.LittleEndian.PutUint64] on a fresh 8-byte slice:
    [b[i] = byte(v >> (8*i))]. *)
Definition byte_of (v : Z) : Z := Z.land v 255.

Definition binary_LittleEndian_PutUint64 (v : Z) : bytes :=
  [ byte_of v; byte_of (Z.shiftr v 8); byte_of (Z.shiftr v 16);
    byte_of (Z.shiftr v 24); byte_of (Z.shiftr v 32); byte_of (Z.shiftr v 40);
    byte_of (Z.shiftr v 48); byte_of (Z.shiftr v 56) ].

(** [len(data)], an [int]. *)
Definition len (data : bytes) : Z := Z.of_nat (length data).

Definition newline : string := String (Ascii.ascii_of_nat 10) EmptyString.
Definition tab : string := String (Ascii.ascii_of_nat 9) EmptyString.
Definition dquote : string := String (Ascii.ascii_of_nat 34) EmptyString.

Fixpoint bytes_of_string (s : string) : bytes :=
  match s with
  | EmptyString => []
  | String a rest => Z.of_nat (Ascii.nat_of_ascii a) :: bytes_of_string rest
  end.

(** The [%d] verb. *)
Definition fmt_d (n : Z) : string := pretty n.

(** [filepath.Join] of clean elements: they are joined by the separator. *)
Fixpoint filepath_Join (elem : list string) : string :=
  match elem with
  | [] => EmptyString
  | [e] => e
  | e :: rest => e +:+ "/" +:+ filepath_Join rest
  end.

(** The files written so far, and the failures the operating system is
    going to report: every I/O call consumes one entry of [os_faults]
    ([Some e]: the call fails with [e] and changes nothing); when the list
    is used up, calls succeed. *)
Record OS := {
  os_files : gmap string bytes;
  os_faults : list (option error)
}.

(** An exporter action: it ends in a value or in the error that
    [WriteToFile] returns at that point. *)
Definition IO (A : Type) : Type := OS -> (A + error) * OS.

Definition io_ret {A : Type} (a : A) : IO A := fun o => (inl a, o).

Definition io_bind {A B : Type} (c : IO A) (k : A -> IO B) : IO B :=
  fun o =>
    match c o with
    | (inl a, o') => k a o'
    | (inr e, o') => (inr e, o')
    end.

Notation "x <- c ;; k" := (io_bind c (fun x => k))
  (at level 100, c at next level, right associativity).

(** One system call: [effect] is applied if the call succeeds. *)
Definition syscall (effect : gmap string bytes -> gmap string bytes) : IO unit :=
  fun o =>
    match os_faults o with
    | Some e :: rest => (inr e, {| os_files := os_files o; os_faults := rest |})
    | None :: rest => (inl tt, {| os_files := effect (os_files o); os_faults := rest |})
    | [] => (inl tt, {| os_files := effect (os_files o); os_faults := [] |})
    end.

Definition os_MkdirAll (path : string) : IO unit := syscall (fun f => f).

(** [os.OpenFile(path, O_WRONLY|O_CREATE|O_TRUNC, perm)] and [os.Create]:
    the handle is the path. *)
Definition os_OpenFile (path : string) : IO string :=
  _ <- syscall (fun f => <[path := []]> f) ;; io_ret path.

Definition os_Create (path : string) : IO string := os_OpenFile path.

Definition os_WriteFile (path : string) (data : bytes) : IO unit :=
  syscall (fun f => <[path := data]> f).

Definition File_Write (file : string) (data : bytes) : IO unit :=
  syscall (fun f => alter (fun old => old ++ data) file f).

Definition File_WriteString (file : string) (s : string) : IO unit :=
  File_Write file (bytes_of_string s).

Fixpoint io_for {A : Type} (l : list A) (body : A -> IO unit) : IO unit :=
  match l with
  | [] => io_ret tt
  | a :: rest => _ <- body a ;; io_for rest body
  end.

Definition libraries : list string :=
  ["soft-float.wasm"; "wasi_stub.wasm"; "go_stub.wasm"; "host_io.wasm"; "brotli.wasm"].

Section Exporter.
(** The machine locator, the process and the formatting of hashes. *)
Variable rootPath : string.
Variable getMachinePath : Hash -> string.
Variable launchTime : string.
Variable os_Executable : string + error.
Variable filepath_Dir : string -> string.
Variable Hash_String : Hash -> string.
(** The order in which [range] visits a map: some order of its entries. *)
Variable range_order : gmap N bytes -> list (N * bytes).

(** [ArbitratorSpawner.WriteToFile]; [config] is [v.config()].  The two
    deferred [Close] calls do not change what the files hold and are left
    out. *)
Definition ArbitratorSpawner_WriteToFile (config : ArbitratorSpawnerConfig)
  (input : ValidationInput) (expOut : GoGlobalState) (moduleRoot : Hash) : IO unit :=
  let outDirPath :=
    filepath_Join [rootPath; OutputPath config; launchTime;
                   "block_" +:+ fmt_d (Id input)] in
  _ <- os_MkdirAll outDirPath ;;
  let rootPathAssign :=
    match os_Executable with
    | inl executable => "ROOTPATH=" +:+ dquote +:+ filepath_Dir executable +:+ dquote +:+ newline
    | inr _ => EmptyString
    end in
  cmdFile <- os_OpenFile (filepath_Join [outDirPath; "run-prover.sh"]) ;;
  _ <- File_WriteString cmdFile
         ("#!/bin/bash" +:+ newline +:+
          ("# expected output: batch " +:+ fmt_d (Batch expOut) +:+ ", postion "
             +:+ fmt_d (PosInBatch expOut) +:+ ", hash "
             +:+ Hash_String (BlockHash expOut) +:+ newline) +:+
          "MACHPATH=" +:+ dquote +:+ getMachinePath moduleRoot +:+ dquote +:+ newline +:+
          rootPathAssign +:+
          "if (( $# > 1 )); then" +:+ newline +:+
          tab +:+ "if [[ $1 == " +:+ dquote +:+ "-m" +:+ dquote +:+ " ]]; then" +:+ newline +:+
          tab +:+ tab +:+ "MACHPATH=$2" +:+ newline +:+
          tab +:+ tab +:+ "shift" +:+ newline +:+
          tab +:+ tab +:+ "shift" +:+ newline +:+
          tab +:+ "fi" +:+ newline +:+
          "fi" +:+ newline +:+
          "${ROOTPATH}/bin/prover ${MACHPATH}/replay.wasm") ;;
  _ <- io_for libraries (fun module =>
         File_WriteString cmdFile (" -l " +:+ "${MACHPATH}/" +:+ module)) ;;
  _ <- File_WriteString cmdFile
         (" --inbox-position " +:+ fmt_d (Batch (StartState input))
          +:+ " --position-within-message " +:+ fmt_d (PosInBatch (StartState input))
          +:+ " --last-block-hash " +:+ Hash_String (BlockHash (StartState input))) ;;
  _ <- io_for (BatchInfos input) (fun msg =>
         let sequencerFileName := "sequencer_" +:+ fmt_d (Number msg) +:+ ".bin" in
         _ <- os_WriteFile (filepath_Join [outDirPath; sequencerFileName]) (Data msg) ;;
         File_WriteString cmdFile (" --inbox " +:+ sequencerFileName)) ;;
  preimageFile <- os_Create (filepath_Join [outDirPath; "preimages.bin"]) ;;
  _ <- io_for (range_order (Preimages input)) (fun kv =>
         let data := snd kv in
         let lenbytes := binary_LittleEndian_PutUint64 (wrap_uint64 (len data)) in
         _ <- File_Write preimageFile lenbytes ;;
         File_Write preimageFile data) ;;
  _ <- File_WriteString cmdFile " --preimages preimages.bin" ;;
  _ <- (if HasDelayedMsg input then
          _ <- File_WriteString cmdFile
                 (" --delayed-inbox-position " +:+ fmt_d (DelayedMsgNr input)) ;;
          let filename := "delayed_" +:+ fmt_d (DelayedMsgNr input) +:+ ".bin" in
          _ <- os_WriteFile (filepath_Join [outDirPath; filename]) (DelayedMsg input) ;;
          File_WriteString cmdFile (" --delayed-inbox " +:+ filename)
        else io_ret tt) ;;
  File_WriteString cmdFile (" " +:+ dquote +:+ "$@" +:+ dquote +:+ newline).

(** The directory of the bundle and the path of its preimage file. *)
Definition outDir (config : ArbitratorSpawnerConfig) (input : ValidationInput) : string :=
  filepath_Join [rootPath; OutputPath config; launchTime;
                 "block_" +:+ fmt_d (Id input)].

Definition preimagesPath (config : ArbitratorSpawnerConfig) (input : ValidationInput)
  : string :=
  filepath_Join [outDir config input; "preimages.bin"].

End Exporter.

(** The layout of [preimages.bin] in the words of the specification: for
    each entry, the 8-byte little-endian encoding of its length, then its
    bytes. *)
Definition le64_spec (n : Z) : bytes :=
  map (fun i => (n / 256 ^ Z.of_nat i) mod 256) (seq 0 8).

Definition record_spec (data : bytes) : bytes := le64_spec (len data) ++ data.

Definition preimages_bin_spec (entries : list (N * bytes)) : bytes :=
  concat (map (fun kv => record_spec (snd kv)) entries).

(** Reading a little-endian number back. *)
Fixpoint le_decode (b : bytes) : Z :=
  match b with
  | [] => 0
  | x :: rest => x + 256 * le_decode rest
  end.

Definition empty_os : OS := {| os_files := ∅; os_faults := [] |}.

Definition mock_order (m : gmap N bytes) : list (N * bytes) := map_to_list m.

Definition mock_export : IO unit :=
  ArbitratorSpawner_WriteToFile "/root" (fun _ => "/machines/latest") "2026_01_02__15_04"
    (inl "/usr/bin/nitro") (fun _ => "/usr/bin") (fun _ => "0x00") mock_order
    DefaultArbitratorSpawnerConfig mock_entry_delayed mock_final 1%N.

(** ** Vocabulary of the properties *)

(** The batch messages and the delayed messages fed, in trace order. *)
Fixpoint seq_fed (tr : list Event) : list (Z * bytes) :=
  match tr with
  | [] => []
  | EvCall (CAddSequencerInboxMessage n d) _ :: rest => (n, d) :: seq_fed rest
  | _ :: rest => seq_fed rest
  end.

Fixpoint delayed_fed (tr : list Event) : list (Z * bytes) :=
  match tr with
  | [] => []
  | EvCall (CAddDelayedInboxMessage n d) _ :: rest => (n, d) :: delayed_fed rest
  | _ :: rest => delayed_fed rest
  end.

(** The results of the calls of a trace, in order. *)
Fixpoint call_results (tr : list Event) : list (option error) :=
  match tr with
  | [] => []
  | EvCall _ e :: rest => e :: call_results rest
  | _ :: rest => call_results rest
  end.

(** The results of the [Step] calls of a trace. *)
Fixpoint step_results (tr : list Event) : list (option error) :=
  match tr with
  | [] => []
  | EvCall (CStep _) e :: rest => e :: step_results rest
  | _ :: rest => step_results rest
  end.

Definition batch_messages (entry : ValidationInput) : list (Z * bytes) :=
  map (fun b => (Number b, Data b)) (BatchInfos entry).

(** The events of feeding the batches [l] without a failure. *)
Definition feed_events (l : list BatchInfo) : list Event :=
  map (fun b => EvCall (CAddSequencerInboxMessage (Number b) (Data b)) None) l.

Definition is_call (c : Call) (ev : Event) : bool :=
  match ev with
  | EvCall c' _ =>
    match c, c' with
    | CClone, CClone | CDestroy, CDestroy | CFreeze, CFreeze => true
    | _, _ => false
    end
  | _ => false
  end.

(** How often the clone is created, destroyed and frozen in a trace. *)
Definition count_call (c : Call) (tr : list Event) : nat :=
  length (List.filter (is_call c) tr).


Definition machine_fault : error :=
  errors_New "machine entered errored state during attempted validation".

Section ExitKinds.
Context {M : Type} `{ArbitratorMachine M}.

(** [k] iterations of the loop, none of which failed, from [m]. *)
Fixpoint stepN (k : nat) (ctx : context_Context) (m : M) : option M :=
  match k with
  | O => Some m
  | S k =>
    if IsRunning m then
      match Step ctx stepCount m with
      | (Some _, _) => None
      | (None, m') => stepN k ctx m'
      end
    else None
  end.


End ExitKinds.


Section Invariant.
Context {SW : Type}.

(** A blocked or returning [run.WaitReady(ctx)] on the run at [p]. *)
Inductive World_WaitReady (w : World SW) (p : nat) (ctx : context_Context)
  : option error -> World SW -> Prop :=
| World_WaitReady_intro r e d :
    heap w !! p = Some r ->
    readyMarker_WaitReady (marker r) ctx e d ->
    World_WaitReady w p ctx e
      {| arb := arb w; jit := jit w;
         heap := <[p := with_marker r d]> (heap w); pool := pool w |}.

(** A run that nobody resolved yet, and a resolved one. *)
Definition pending (r : valRun) : Prop :=
  marker r = newReadyMarker /\ result r = GoGlobalState_zero.

Definition resolved (r : valRun) : Prop :=
  chanReady (marker r) = true /\ boolReady (marker r) = 1.

(** What holds of every reachable world: the [i]-th goroutine owns the
    [i]-th run, which is pending exactly while the goroutine has not
    called [consumeResult], and each counter is the number of its
    goroutines that have not run their deferred decrement. *)
Definition Inv (w : World SW) : Prop :=
  length (heap w) = length (pool w) /\
  (forall i g, pool w !! i = Some g ->
     g_run g = i /\
     exists r, heap w !! i = Some r /\
       (g_pc g = Running -> pending r) /\
       (g_pc g <> Running -> resolved r)) /\
  (forall b, count_of b w
             = wrap_int32 (Z.of_nat (launched b (pool w)) - Z.of_nat (completed b (pool w)))).

End Invariant.

(** An exporter action that leaves the file at [p] alone, and one that
    goes through when the operating system reports no failure. *)
Definition untouched {A : Type} (p : string) (c : IO A) : Prop :=
  forall o r o', c o = (r, o') -> os_files o' !! p = os_files o !! p.

Definition succeeds {A : Type} (c : IO A) : Prop :=
  forall o, os_faults o = [] ->
    exists a o', c o = (inl a, o') /\ os_faults o' = [].

(** The record that the loop of [WriteToFile] writes for one entry. *)
Definition record_written (data : bytes) : bytes :=
  binary_LittleEndian_PutUint64 (wrap_uint64 (len data)) ++ data.

(** ** Scenarios on the mock machine *)

Definition mock_cancelled : context_Context := {| ctx_Err := Some context_Canceled |}.




Definition mock_goroutine (moduleRoot : Hash) : Goroutine :=
  {| g_backend := Arbitrator; g_run := 0; g_entry := mock_entry;
     g_root := moduleRoot; g_pc := Running |}.

(** One launch on the native backend, for the module root given. *)
Definition mock_launched (moduleRoot : Hash) : World MockSW :=
  fst (Launch Arbitrator mock_entry moduleRoot mock_world).

(** Two launches on a native spawner limited to one concurrent run. *)
Definition mock_overloaded : World MockSW :=
  fst (Launch Arbitrator mock_entry 1%N
        (fst (Launch Arbitrator mock_entry 1%N
               (init_world MockSW_zero MockSW_zero
                  {| ConcurrentRuns := 1; OutputPath := "./target/output";
                     TargetMachineCount := 4 |}
                  DefaultJitSpawnerConfig)))).

Definition mock_machine (moduleRoot : Hash) : Mock :=
  match mock_base moduleRoot with
  | inl base => base
  | inr _ => mock_halted
  end.

(** The clone of that machine, with the event of its creation. *)
Definition mock_cloned (moduleRoot : Hash) : mstate (M := Mock) :=
  (Clone (mock_machine moduleRoot), [EvCall CClone None]).

Definition mock_entry_rejected : ValidationInput :=
  {| Id := 0; HasDelayedMsg := false; DelayedMsgNr := 0;
     Preimages := ∅; BatchInfos := []; DelayedMsg := [];
     StartState := GoGlobalState_zero |}.



(** ** Vocabulary of the further properties *)

(** What a successful exporter action does to the file at [q], as a
    function of what the file held before ([None]: no such file). *)
Definition acts {A : Type} (q : string) (c : IO A)
  (g : option bytes -> option bytes) : Prop :=
  forall o a o', c o = (inl a, o') -> os_files o' !! q = g (os_files o !! q).

(** The values an exporter action can end in. *)
Definition returns {A : Type} (c : IO A) (a : A) : Prop :=
  exists o o', c o = (inl a, o').


(** The files of a bundle, next to [preimagesPath]. *)
Definition scriptPath (rootPath launchTime : string) (config : ArbitratorSpawnerConfig)
  (input : ValidationInput) : string :=
  filepath_Join [outDir rootPath launchTime config input; "run-prover.sh"].

Definition sequencerPath (rootPath launchTime : string) (config : ArbitratorSpawnerConfig)
  (input : ValidationInput) (n : Z) : string :=
  filepath_Join [outDir rootPath launchTime config input;
                 "sequencer_" +:+ fmt_d n +:+ ".bin"].


(** The payload of the last batch message that carries the number [n]. *)
Definition last_payload (n : Z) (l : list BatchInfo) : option bytes :=
  last (map Data (filter (fun b => Number b = n) l)).

(** The text of [run-prover.sh], piece by piece. *)
Definition script_header (getMachinePath : Hash -> string)
  (os_Executable : string + error) (filepath_Dir : string -> string)
  (Hash_String : Hash -> string) (expOut : GoGlobalState) (moduleRoot : Hash) : string :=
  "#!/bin/bash" +:+ newline +:+
  ("# expected output: batch " +:+ fmt_d (Batch expOut) +:+ ", postion "
     +:+ fmt_d (PosInBatch expOut) +:+ ", hash "
     +:+ Hash_String (BlockHash expOut) +:+ newline) +:+
  "MACHPATH=" +:+ dquote +:+ getMachinePath moduleRoot +:+ dquote +:+ newline +:+
  match os_Executable with
  | inl executable => "ROOTPATH=" +:+ dquote +:+ filepath_Dir executable +:+ dquote +:+ newline
  | inr _ => EmptyString
  end +:+
  "if (( $# > 1 )); then" +:+ newline +:+
  tab +:+ "if [[ $1 == " +:+ dquote +:+ "-m" +:+ dquote +:+ " ]]; then" +:+ newline +:+
  tab +:+ tab +:+ "MACHPATH=$2" +:+ newline +:+
  tab +:+ tab +:+ "shift" +:+ newline +:+
  tab +:+ tab +:+ "shift" +:+ newline +:+
  tab +:+ "fi" +:+ newline +:+
  "fi" +:+ newline +:+
  "${ROOTPATH}/bin/prover ${MACHPATH}/replay.wasm".

Definition script_position (Hash_String : Hash -> string) (input : ValidationInput)
  : string :=
  " --inbox-position " +:+ fmt_d (Batch (StartState input))
  +:+ " --position-within-message " +:+ fmt_d (PosInBatch (StartState input))
  +:+ " --last-block-hash " +:+ Hash_String (BlockHash (StartState input)).

Definition script_delayed (input : ValidationInput) : list string :=
  if HasDelayedMsg input
  then [" --delayed-inbox-position " +:+ fmt_d (DelayedMsgNr input);
        " --delayed-inbox " +:+ ("delayed_" +:+ fmt_d (DelayedMsgNr input) +:+ ".bin")]
  else [].

(** The pieces of the script in the order of the file. *)
Definition script_pieces (getMachinePath : Hash -> string)
  (os_Executable : string + error) (filepath_Dir : string -> string)
  (Hash_String : Hash -> string) (input : ValidationInput) (expOut : GoGlobalState)
  (moduleRoot : Hash) : list string :=
  [script_header getMachinePath os_Executable filepath_Dir Hash_String expOut moduleRoot]
  ++ map (fun module => " -l " +:+ "${MACHPATH}/" +:+ module) libraries
  ++ [script_position Hash_String input]
  ++ map (fun msg => " --inbox " +:+ ("sequencer_" +:+ fmt_d (Number msg) +:+ ".bin"))
       (BatchInfos input)
  ++ [" --preimages preimages.bin"]
  ++ script_delayed input
  ++ [" " +:+ dquote +:+ "$@" +:+ dquote +:+ newline].

Definition script_bytes (pieces : list string) : bytes :=
  concat (map bytes_of_string pieces).

(** Writing a whole file at [path], and appending to the file at [file],
    seen from the file at [q]. *)
Definition file_set (q path : string) (d : bytes) (x : option bytes) : option bytes :=
  if decide (path = q) then Some d else x.

Definition file_append (q file : string) (d : bytes) (x : option bytes) : option bytes :=
  if decide (file = q) then (fun old => old ++ d) <$> x else x.

(** A reader of [preimages.bin]: eight bytes of length, that many bytes of
    data, and so on to the end of the file; [None] when the file ends in
    the middle of a record.  [fuel] bounds the number of records. *)
Fixpoint decode_records (fuel : nat) (b : bytes) : option (list bytes) :=
  match b with
  | [] => Some []
  | _ :: _ =>
    match fuel with
    | O => None
    | S fuel =>
      if (length b <? 8)%nat then None
      else
        let n := Z.to_nat (le_decode (take 8 b)) in
        let rest := drop 8 b in
        if (length rest <? n)%nat then None
        else
          match decode_records fuel (drop n rest) with
          | Some records => Some (take n rest :: records)
          | None => None
          end
    end
  end.

Definition decode_preimages (b : bytes) : option (list bytes) :=
  decode_records (length b) b.

(** The order of the stages of a goroutine. *)
Definition pc_le (p q : pc) : Prop :=
  match p, q with
  | Running, _ => True
  | Resolved, Running => False
  | Resolved, _ => True
  | Exited, Exited => True
  | Exited, _ => False
  end.

(** [g'] is the goroutine [g] at the same or at a later stage. *)
Definition same_task (g g' : Goroutine) : Prop :=
  g_backend g' = g_backend g /\ g_run g' = g_run g /\
  g_entry g' = g_entry g /\ g_root g' = g_root g /\
  pc_le (g_pc g) (g_pc g').

(** Every run carries the module root its goroutine was launched with. *)
Definition Inv_root {SW : Type} (w : World SW) : Prop :=
  forall i g r, pool w !! i = Some g -> heap w !! i = Some r -> root r = g_root g.

(** The events of the iterations [j0], ..., [j0 + n - 1] of the stepping
    loop when none fails: a [Step] call each, followed by the debug line
    with the steps taken before that iteration, except in iteration 0. *)
Definition loop_trace (j0 n : nat) : list Event :=
  flat_map (fun j : nat =>
              EvCall (CStep stepCount) None ::
              match j with
              | O => []
              | S _ => [EvLogDebug (Z.of_nat j * stepCount)]
              end) (seq j0 n).

(** A run that was resolved before, for the double resolution. *)
Definition mock_resolved_run : valRun :=
  {| marker := {| chanReady := true; boolReady := 1; err := None |};
     root := 1%N; result := mock_final |}.


(** A native spawner whose counter stands at the largest [int32]. *)
Definition mock_saturated : World MockSW :=
  {| arb := {| arb_StopWaiter := MockSW_zero; arb_count := max_int32;
               arb_config := DefaultArbitratorSpawnerConfig |};
     jit := jit mock_world; heap := []; pool := [] |}.

(** The export of an input without batch messages and preimages. *)
Definition mock_export_empty : IO unit :=
  ArbitratorSpawner_WriteToFile "/root" (fun _ => "/machines/latest") "2026_01_02__15_04"
    (inl "/usr/bin/nitro") (fun _ => "/usr/bin") (fun _ => "0x00") mock_order
    DefaultArbitratorSpawnerConfig mock_entry_rejected mock_final 1%N.

(** * Properties *)

(** ** Traces *)

Lemma seq_fed_app tr1 tr2 : seq_fed (tr1 ++ tr2) = seq_fed tr1 ++ seq_fed tr2.
Proof.
  induction tr1 as [|ev tr1 IH]; simpl; [reflexivity|].
  destruct ev as [c e| |]; try assumption.
  destruct c; simpl; try assumption. by rewrite IH.
Qed.

Lemma delayed_fed_app tr1 tr2 :
  delayed_fed (tr1 ++ tr2) = delayed_fed tr1 ++ delayed_fed tr2.
Proof.
  induction tr1 as [|ev tr1 IH]; simpl; [reflexivity|].
  destruct ev as [c e| |]; try assumption.
  destruct c; simpl; try assumption. by rewrite IH.
Qed.

Lemma call_results_app tr1 tr2 :
  call_results (tr1 ++ tr2) = call_results tr1 ++ call_results tr2.
Proof.
  induction tr1 as [|ev tr1 IH]; simpl; [reflexivity|].
  destruct ev as [c e| |]; try assumption. by rewrite IH.
Qed.

Lemma step_results_app tr1 tr2 :
  step_results (tr1 ++ tr2) = step_results tr1 ++ step_results tr2.
Proof.
  induction tr1 as [|ev tr1 IH]; simpl; [reflexivity|].
  destruct ev as [c e| |]; try assumption.
  destruct c; simpl; try assumption. by rewrite IH.
Qed.

Lemma count_call_app c tr1 tr2 :
  count_call c (tr1 ++ tr2) = (count_call c tr1 + count_call c tr2)%nat.
Proof. unfold count_call. by rewrite List.filter_app, length_app. Qed.

Lemma seq_fed_feed (l : list BatchInfo) :
  seq_fed (feed_events l)
  = map (fun b => (Number b, Data b)) l.
Proof. induction l as [|b l IH]; simpl; [reflexivity|]. by rewrite IH. Qed.

Lemma call_results_feed (l : list BatchInfo) :
  call_results (feed_events l)
  = replicate (length l) None.
Proof. induction l as [|b l IH]; simpl; [reflexivity|]. by rewrite IH. Qed.

Lemma delayed_fed_feed (l : list BatchInfo) :
  delayed_fed (feed_events l)
  = [].
Proof. induction l as [|b l IH]; simpl; [reflexivity|]. exact IH. Qed.

Lemma step_results_feed (l : list BatchInfo) :
  step_results (feed_events l)
  = [].
Proof. induction l as [|b l IH]; simpl; [reflexivity|]. exact IH. Qed.

Lemma count_call_feed c (l : list BatchInfo) :
  count_call c (feed_events l)
  = O.
Proof.
  unfold count_call. induction l as [|b l IH]; simpl; [reflexivity|].
  destruct c; simpl; exact IH.
Qed.

Lemma replicate_snoc_None {A : Type} (n : nat) (x : A) :
  x :: replicate n x = replicate n x ++ [x].
Proof. induction n as [|n IH]; simpl; [reflexivity|]. by rewrite <- IH. Qed.

(** ** Feeding the input *)

Section ReplayProps.
Context {M : Type} `{ArbitratorMachine M} `{ArbMachineLoader M}.

Lemma call_eq {A : Type} (c : Call) (f : A -> option error) (op : M -> A * M)
  (s : mstate) :
  call c f op s
  = (fst (op (fst s)), (snd (op (fst s)), snd s ++ [EvCall c (f (fst (op (fst s))))])).
Proof. unfold call. destruct (op (fst s)); reflexivity. Qed.

(** Either every batch was fed, or the feed stopped at the first batch
    the machine refused. *)
Lemma feedBatches_trace (l : list BatchInfo) (s : mstate) e s' :
  feedBatches l s = (e, s') ->
  (e = None /\
   snd s' = snd s ++
     feed_events l)
  \/
  (exists k b e0,
     l !! k = Some b /\
     e = Some (fmt_Errorf "error while trying to add sequencer msg for proving" e0) /\
     snd s' = snd s ++
       feed_events (take k l)
       ++ [EvCall (CAddSequencerInboxMessage (Number b) (Data b)) (Some e0);
           EvLogError "error while trying to add sequencer msg for proving"]).
Proof.
  revert s. induction l as [|b l IH]; intros s Hf; simpl in Hf.
  - inversion Hf; subst. left. split; [reflexivity|]. simpl. by rewrite app_nil_r.
  - rewrite call_eq in Hf.
    destruct (AddSequencerInboxMessage (Number b) (Data b) (fst s)) as [[e0|] m] eqn:Hop;
      simpl in Hf.
    + inversion Hf; subst. right. exists O, b, e0. simpl.
      split; [reflexivity|]. split; [reflexivity|].
      unfold logError. simpl. by rewrite <- app_assoc.
    + apply IH in Hf. simpl in Hf.
      destruct Hf as [[-> Htr] | (k & b' & e0 & Hk & -> & Htr)].
      * left. split; [reflexivity|]. rewrite Htr. simpl. by rewrite <- app_assoc.
      * right. exists (S k), b', e0. simpl. split; [exact Hk|]. split; [reflexivity|].
        rewrite Htr. by rewrite <- !app_assoc.
Qed.

(** The six ways through [loadEntryToMachine], each with its events. *)
Lemma loadEntryToMachine_trace ctx (entry : ValidationInput) (s : mstate) e s' :
  ArbitratorSpawner_loadEntryToMachine ctx entry s = (e, s') ->
  exists tr, snd s' = snd s ++ tr /\
  ((exists e0, e = Some e0 /\
      fst (SetPreimageResolver (preimageResolver entry) (fst s)) = Some e0 /\
      tr = [EvCall CSetPreimageResolver (Some e0)])
   \/
   (exists e0, e = Some (fmt_Errorf "error while setting global state for proving" e0) /\
      tr = [EvCall CSetPreimageResolver None;
            EvCall (CSetGlobalState (StartState entry)) (Some e0);
            EvLogError "error while setting global state for proving"])
   \/
   (exists k b e0, BatchInfos entry !! k = Some b /\
      e = Some (fmt_Errorf "error while trying to add sequencer msg for proving" e0) /\
      tr = [EvCall CSetPreimageResolver None;
            EvCall (CSetGlobalState (StartState entry)) None]
           ++ feed_events (take k (BatchInfos entry))
           ++ [EvCall (CAddSequencerInboxMessage (Number b) (Data b)) (Some e0);
               EvLogError "error while trying to add sequencer msg for proving"])
   \/
   (HasDelayedMsg entry = false /\ e = None /\
      tr = [EvCall CSetPreimageResolver None;
            EvCall (CSetGlobalState (StartState entry)) None]
           ++ feed_events (BatchInfos entry))
   \/
   (HasDelayedMsg entry = true /\ e = None /\
      tr = [EvCall CSetPreimageResolver None;
            EvCall (CSetGlobalState (StartState entry)) None]
           ++ feed_events (BatchInfos entry)
           ++ [EvCall (CAddDelayedInboxMessage (DelayedMsgNr entry) (DelayedMsg entry)) None])
   \/
   (exists e0, HasDelayedMsg entry = true /\
      e = Some (fmt_Errorf "error while trying to add delayed msg for proving" e0) /\
      tr = [EvCall CSetPreimageResolver None;
            EvCall (CSetGlobalState (StartState entry)) None]
           ++ feed_events (BatchInfos entry)
           ++ [EvCall (CAddDelayedInboxMessage (DelayedMsgNr entry) (DelayedMsg entry))
                 (Some e0);
               EvLogError "error while trying to add delayed msg for proving"])).
Proof.
  unfold ArbitratorSpawner_loadEntryToMachine. rewrite call_eq.
  destruct (SetPreimageResolver (preimageResolver entry) (fst s)) as [[e0|] m1] eqn:H1;
    simpl.
  { intros Hl; inversion Hl; subst; simpl. eexists; split; [reflexivity|].
    left. exists e0. done. }
  rewrite call_eq. simpl.
  destruct (SetGlobalState (StartState entry) m1) as [[e0|] m2] eqn:H2; simpl.
  { intros Hl; inversion Hl; subst; simpl. eexists; split; [by rewrite <- !app_assoc|].
    right; left. exists e0. done. }
  destruct (feedBatches (BatchInfos entry) _) as [ef sf] eqn:Hf.
  apply feedBatches_trace in Hf. simpl in Hf.
  destruct Hf as [[-> Htr] | (k & b & e0 & Hk & -> & Htr)].
  2:{ intros Hl; inversion Hl; subst. eexists; split.
      { rewrite Htr. rewrite <- !app_assoc. reflexivity. }
      right; right; left. exists k, b, e0. done. }
  destruct (HasDelayedMsg entry) eqn:Hd.
  2:{ intros Hl; inversion Hl; subst. eexists; split.
      { rewrite Htr. rewrite <- !app_assoc. reflexivity. }
      right; right; right; left. done. }
  rewrite call_eq.
  destruct (AddDelayedInboxMessage (DelayedMsgNr entry) (DelayedMsg entry) (fst sf))
    as [[e0|] m3] eqn:H3; simpl.
  - intros Hl; inversion Hl; subst; simpl. eexists; split.
    { rewrite Htr. rewrite <- !app_assoc. reflexivity. }
    right; right; right; right; right. exists e0. done.
  - intros Hl; inversion Hl; subst; simpl. eexists; split.
    { rewrite Htr. rewrite <- !app_assoc. reflexivity. }
    right; right; right; right; left. done.
Qed.

End ReplayProps.

Ltac splits := repeat match goal with |- _ /\ _ => split end.

Section FeedOrder.
Context {M : Type} `{ArbitratorMachine M} `{ArbMachineLoader M}.

(** C5.  [loadEntryToMachine] feeds the batch messages through
    [AddSequencerInboxMessage] in the order of the input, up to the first
    one the machine refuses; a failing call is the last call made and its
    error is returned; [AddDelayedInboxMessage] is not called when
    [HasDelayedMsg] is false, and when it is true the only thing that
    prevents the call is an earlier failure; when the call is made, every
    batch message has been fed before it, each with success, and nothing
    is fed after it. *)
Theorem C5_feed_order ctx (entry : ValidationInput) (s : mstate) e s' :
  ArbitratorSpawner_loadEntryToMachine ctx entry s = (e, s') ->
  exists tr, snd s' = snd s ++ tr /\
    (exists k, seq_fed tr = take k (batch_messages entry)) /\
    (e = None -> seq_fed tr = batch_messages entry) /\
    ((e = None /\ exists n, call_results tr = replicate n None) \/
     (exists n e0, e <> None /\ call_results tr = replicate n None ++ [Some e0])) /\
    (HasDelayedMsg entry = false -> delayed_fed tr = []) /\
    (HasDelayedMsg entry = true ->
       delayed_fed tr = [(DelayedMsgNr entry, DelayedMsg entry)] \/
       (delayed_fed tr = [] /\
        exists n e0, call_results tr = replicate n None ++ [Some e0])) /\
    (delayed_fed tr <> [] ->
       HasDelayedMsg entry = true /\
       exists pre r post,
         tr = pre ++ EvCall (CAddDelayedInboxMessage (DelayedMsgNr entry)
                               (DelayedMsg entry)) r :: post /\
         seq_fed pre = batch_messages entry /\
         Forall (fun x => x = None) (call_results pre) /\
         delayed_fed pre = [] /\
         seq_fed post = [] /\ call_results post = []).
Proof.
  intros Hl. apply loadEntryToMachine_trace in Hl.
  destruct Hl as (tr & Htr & Hshape). exists tr. split; [exact Htr|].
  unfold batch_messages.
  destruct Hshape as
    [(e0 & -> & _ & ->) | [(e0 & -> & ->) | [(k & b & e0 & Hk & -> & ->) |
     [(Hd & -> & ->) | [(Hd & -> & ->) | (e0 & Hd & -> & ->)]]]]].
  - simpl. splits.
    + exists O. by rewrite take_0.
    + discriminate.
    + right. exists O, e0. done.
    + done.
    + intros _. right. split; [reflexivity|]. exists O, e0. done.
    + intros Hne. done.
  - simpl. splits.
    + exists O. by rewrite take_0.
    + discriminate.
    + right. exists 1%nat, e0. done.
    + done.
    + intros _. right. split; [reflexivity|]. exists 1%nat, e0. done.
    + intros Hne. done.
  - assert (Hseq : seq_fed
        ([EvCall CSetPreimageResolver None; EvCall (CSetGlobalState (StartState entry)) None]
         ++ feed_events (take k (BatchInfos entry))
         ++ [EvCall (CAddSequencerInboxMessage (Number b) (Data b)) (Some e0);
             EvLogError "error while trying to add sequencer msg for proving"])
        = take (S k) (map (fun b => (Number b, Data b)) (BatchInfos entry))).
    { simpl. rewrite seq_fed_app, seq_fed_feed. simpl.
      rewrite <- fmap_take. erewrite (take_S_r (BatchInfos entry)) by exact Hk.
      by rewrite fmap_app. }
    assert (Hres : call_results
        ([EvCall CSetPreimageResolver None; EvCall (CSetGlobalState (StartState entry)) None]
         ++ feed_events (take k (BatchInfos entry))
         ++ [EvCall (CAddSequencerInboxMessage (Number b) (Data b)) (Some e0);
             EvLogError "error while trying to add sequencer msg for proving"])
        = replicate (2 + length (take k (BatchInfos entry))) None ++ [Some e0]).
    { simpl. rewrite call_results_app, call_results_feed. reflexivity. }
    assert (Hdel : delayed_fed
        ([EvCall CSetPreimageResolver None; EvCall (CSetGlobalState (StartState entry)) None]
         ++ feed_events (take k (BatchInfos entry))
         ++ [EvCall (CAddSequencerInboxMessage (Number b) (Data b)) (Some e0);
             EvLogError "error while trying to add sequencer msg for proving"])
        = []).
    { simpl. rewrite delayed_fed_app, delayed_fed_feed. reflexivity. }
    rewrite Hseq, Hres, Hdel. splits.
    + by exists (S k).
    + discriminate.
    + right. eexists _, e0. done.
    + done.
    + intros _. right. split; [reflexivity|]. eexists _, e0. done.
    + done.
  - assert (Hseq : seq_fed
        ([EvCall CSetPreimageResolver None; EvCall (CSetGlobalState (StartState entry)) None]
         ++ feed_events (BatchInfos entry))
        = map (fun b => (Number b, Data b)) (BatchInfos entry)).
    { simpl. by rewrite seq_fed_feed. }
    assert (Hres : call_results
        ([EvCall CSetPreimageResolver None; EvCall (CSetGlobalState (StartState entry)) None]
         ++ feed_events (BatchInfos entry))
        = replicate (2 + length (BatchInfos entry)) None).
    { simpl. by rewrite call_results_feed. }
    assert (Hdel : delayed_fed
        ([EvCall CSetPreimageResolver None; EvCall (CSetGlobalState (StartState entry)) None]
         ++ feed_events (BatchInfos entry)) = []).
    { simpl. by rewrite delayed_fed_feed. }
    rewrite Hseq, Hres, Hdel, Hd. splits.
    + exists (length (BatchInfos entry)). rewrite <- fmap_take. by rewrite take_ge by lia.
    + done.
    + left. split; [reflexivity|]. by eexists.
    + done.
    + discriminate.
    + done.
  - assert (Hseq : seq_fed
        ([EvCall CSetPreimageResolver None; EvCall (CSetGlobalState (StartState entry)) None]
         ++ feed_events (BatchInfos entry)
         ++ [EvCall (CAddDelayedInboxMessage (DelayedMsgNr entry) (DelayedMsg entry)) None])
        = map (fun b => (Number b, Data b)) (BatchInfos entry)).
    { simpl. rewrite seq_fed_app, seq_fed_feed. simpl. by rewrite app_nil_r. }
    assert (Hres : call_results
        ([EvCall CSetPreimageResolver None; EvCall (CSetGlobalState (StartState entry)) None]
         ++ feed_events (BatchInfos entry)
         ++ [EvCall (CAddDelayedInboxMessage (DelayedMsgNr entry) (DelayedMsg entry)) None])
        = replicate (3 + length (BatchInfos entry)) None).
    { simpl. rewrite call_results_app, call_results_feed. simpl.
      by rewrite <- replicate_snoc_None. }
    assert (Hdel : delayed_fed
        ([EvCall CSetPreimageResolver None; EvCall (CSetGlobalState (StartState entry)) None]
         ++ feed_events (BatchInfos entry)
         ++ [EvCall (CAddDelayedInboxMessage (DelayedMsgNr entry) (DelayedMsg entry)) None])
        = [(DelayedMsgNr entry, DelayedMsg entry)]).
    { simpl. rewrite delayed_fed_app, delayed_fed_feed. reflexivity. }
    rewrite Hseq, Hres, Hdel, Hd. splits.
    + exists (length (BatchInfos entry)). rewrite <- fmap_take. by rewrite take_ge by lia.
    + done.
    + left. split; [reflexivity|]. by eexists.
    + discriminate.
    + by left.
    + intros _. split; [reflexivity|].
      eexists ([_; _] ++ feed_events (BatchInfos entry)), None, [].
      split; [by rewrite <- app_assoc|].
      split; [simpl; by rewrite seq_fed_feed|].
      split; [simpl; rewrite call_results_feed;
              repeat constructor; apply Forall_replicate; reflexivity|].
      split; [simpl; by rewrite delayed_fed_feed|]. done.
  - assert (Hseq : seq_fed
        ([EvCall CSetPreimageResolver None; EvCall (CSetGlobalState (StartState entry)) None]
         ++ feed_events (BatchInfos entry)
         ++ [EvCall (CAddDelayedInboxMessage (DelayedMsgNr entry) (DelayedMsg entry)) (Some e0);
             EvLogError "error while trying to add delayed msg for proving"])
        = map (fun b => (Number b, Data b)) (BatchInfos entry)).
    { simpl. rewrite seq_fed_app, seq_fed_feed. simpl. by rewrite app_nil_r. }
    assert (Hres : call_results
        ([EvCall CSetPreimageResolver None; EvCall (CSetGlobalState (StartState entry)) None]
         ++ feed_events (BatchInfos entry)
         ++ [EvCall (CAddDelayedInboxMessage (DelayedMsgNr entry) (DelayedMsg entry)) (Some e0);
             EvLogError "error while trying to add delayed msg for proving"])
        = replicate (2 + length (BatchInfos entry)) None ++ [Some e0]).
    { simpl. rewrite call_results_app, call_results_feed. reflexivity. }
    assert (Hdel : delayed_fed
        ([EvCall CSetPreimageResolver None; EvCall (CSetGlobalState (StartState entry)) None]
         ++ feed_events (BatchInfos entry)
         ++ [EvCall (CAddDelayedInboxMessage (DelayedMsgNr entry) (DelayedMsg entry)) (Some e0);
             EvLogError "error while trying to add delayed msg for proving"])
        = [(DelayedMsgNr entry, DelayedMsg entry)]).
    { simpl. rewrite delayed_fed_app, delayed_fed_feed. reflexivity. }
    rewrite Hseq, Hres, Hdel, Hd. splits.
    + exists (length (BatchInfos entry)). rewrite <- fmap_take. by rewrite take_ge by lia.
    + discriminate.
    + right. eexists _, e0. done.
    + discriminate.
    + by left.
    + intros _. split; [reflexivity|].
      eexists ([_; _] ++ feed_events (BatchInfos entry)), (Some e0), [_].
      split; [by rewrite <- app_assoc|].
      split; [simpl; by rewrite seq_fed_feed|].
      split; [simpl; rewrite call_results_feed;
              repeat constructor; apply Forall_replicate; reflexivity|].
      split; [simpl; by rewrite delayed_fed_feed|]. done.
Qed.

End FeedOrder.

(** ** The execution loop *)

Section LoopProps.
Context {M : Type} `{ArbitratorMachine M} `{ArbMachineLoader M}.

Lemma stepLoop_spec fuel ctx steps (s : mstate) :
  match stepLoop fuel ctx steps s with
  | None => exists m', stepN fuel ctx (fst s) = Some m' /\ IsRunning m' = true
  | Some (LoopStopped, s') =>
    exists tr n, snd s' = snd s ++ tr /\
      step_results tr = replicate n None /\
      (forall c, count_call c tr = O) /\
      stepN n ctx (fst s) = Some (fst s') /\ IsRunning (fst s') = false
  | Some (LoopStepError e, s') =>
    exists tr n, snd s' = snd s ++ tr /\
      step_results tr = replicate n None ++ [Some e] /\
      (forall c, count_call c tr = O)
  end.
Proof.
  revert steps s. induction fuel as [|fuel IH]; intros steps s; simpl.
  - destruct (IsRunning (fst s)) eqn:Hrun.
    + exists (fst s). done.
    + exists [], O. rewrite app_nil_r. simpl. rewrite Hrun. done.
  - destruct (IsRunning (fst s)) eqn:Hrun.
    2:{ exists [], O. rewrite app_nil_r. done. }
    rewrite call_eq. simpl.
    destruct (Step ctx stepCount (fst s)) as [[e|] m'] eqn:Hstep; simpl.
    + destruct (0 <? steps); simpl.
      * exists [EvCall (CStep stepCount) (Some e); EvLogDebug steps], O.
        rewrite <- app_assoc. split; [done|]. split; [done|]. by intros [].
      * exists [EvCall (CStep stepCount) (Some e)], O.
        split; [done|]. split; [done|]. by intros [].
    + set (s1 := if 0 <? steps
                 then logDebug steps (m', snd s ++ [EvCall (CStep stepCount) None])
                 else (m', snd s ++ [EvCall (CStep stepCount) None])).
      assert (Hs1 : fst s1 = m' /\ exists lg, snd s1 = snd s ++ EvCall (CStep stepCount) None :: lg
                      /\ step_results lg = [] /\ forall c, count_call c lg = O).
      { subst s1. destruct (0 <? steps); simpl.
        - split; [done|]. exists [EvLogDebug steps]. rewrite <- app_assoc.
          split; [done|]. split; [done|]. by intros [].
        - split; [done|]. exists []. done. }
      destruct Hs1 as (Hfst & lg & Hsnd & Hlg & Hcnt).
      specialize (IH (wrap_uint64 (steps + stepCount)) s1).
      destruct (stepLoop fuel ctx (wrap_uint64 (steps + stepCount)) s1) as [[[|e] s']|].
      * destruct IH as (tr & n & Htr & Hres & Hc & HN & Hstop).
        exists (EvCall (CStep stepCount) None :: lg ++ tr), (S n).
        split; [rewrite Htr, Hsnd, <- app_assoc; done|].
        split; [simpl; rewrite step_results_app, Hlg, Hres; done|].
        split; [intros c; change (EvCall (CStep stepCount) None :: lg ++ tr)
                  with ([EvCall (CStep stepCount) None] ++ lg ++ tr);
                rewrite !count_call_app, Hcnt, Hc; by destruct c|].
        rewrite Hfst in HN. simpl. rewrite Hrun, Hstep. done.
      * destruct IH as (tr & n & Htr & Hres & Hc).
        exists (EvCall (CStep stepCount) None :: lg ++ tr), (S n).
        split; [rewrite Htr, Hsnd, <- app_assoc; done|].
        split; [simpl; rewrite step_results_app, Hlg, Hres; done|].
        intros c; change (EvCall (CStep stepCount) None :: lg ++ tr)
                  with ([EvCall (CStep stepCount) None] ++ lg ++ tr).
        rewrite !count_call_app, Hcnt, Hc; by destruct c.
      * destruct IH as (m'' & HN & Hr). exists m''. rewrite Hfst in HN.
        simpl. try rewrite Hrun. try rewrite Hstep. done.
Qed.


End LoopProps.

(** ** What [execute] returns *)

Section ExecuteProps.
Context {M : Type} `{ArbitratorMachine M} `{ArbMachineLoader M}.

(** Feeding the input neither creates, destroys nor freezes a machine,
    and does not step it. *)
Lemma loadEntryToMachine_quiet ctx (entry : ValidationInput) (s : mstate) e s' :
  ArbitratorSpawner_loadEntryToMachine ctx entry s = (e, s') ->
  exists tr, snd s' = snd s ++ tr /\
    (forall c, count_call c tr = O) /\ step_results tr = [].
Proof.
  intros Hl. apply loadEntryToMachine_trace in Hl.
  destruct Hl as (tr & Htr & Hshape). exists tr. split; [exact Htr|].
  destruct Hshape as
    [(e0 & -> & _ & ->) | [(e0 & -> & ->) | [(k & b & e0 & Hk & -> & ->) |
     [(Hd & -> & ->) | [(Hd & -> & ->) | (e0 & Hd & -> & ->)]]]]];
    (split; [intros c; rewrite ?count_call_app, ?count_call_feed; by destruct c
            | rewrite ?step_results_app, ?step_results_feed; reflexivity]).
Qed.

(** The error of a failed feed is the error of [SetPreimageResolver]
    itself, or carries its stage. *)
Lemma loadEntryToMachine_error ctx (entry : ValidationInput) (s : mstate) e s' :
  ArbitratorSpawner_loadEntryToMachine ctx entry s = (Some e, s') ->
  fst (SetPreimageResolver (preimageResolver entry) (fst s)) = Some e \/
  (fst (SetPreimageResolver (preimageResolver entry) (fst s)) = None /\
   exists stage inner, e = fmt_Errorf stage inner).
Proof.
  unfold ArbitratorSpawner_loadEntryToMachine. rewrite call_eq.
  destruct (SetPreimageResolver (preimageResolver entry) (fst s)) as [[e0|] m1] eqn:H1;
    simpl.
  { intros Hl; inversion Hl; subst. by left. }
  intros Hl. right. split; [reflexivity|].
  rewrite call_eq in Hl. simpl in Hl.
  destruct (SetGlobalState (StartState entry) m1) as [[e0|] m2]; simpl in Hl.
  { inversion Hl; subst. by eexists _, _. }
  destruct (feedBatches (BatchInfos entry) _) as [ef sf] eqn:Hf.
  apply feedBatches_trace in Hf.
  destruct Hf as [[-> Htr] | (k & b & e0 & Hk & -> & Htr)].
  2:{ inversion Hl; subst. by eexists _, _. }
  destruct (HasDelayedMsg entry); [|discriminate].
  rewrite call_eq in Hl.
  destruct (AddDelayedInboxMessage (DelayedMsgNr entry) (DelayedMsg entry) (fst sf))
    as [[e0|] m3]; simpl in Hl; [|discriminate].
  inversion Hl; subst. by eexists _, _.
Qed.

(** Every result of [execute], with the events of the run: a run that
    obtained a machine cloned it once and destroyed the clone once, as the
    last thing it did. *)
Lemma execute_results fuel ctx (entry : ValidationInput) moduleRoot r tr :
  ArbitratorSpawner_execute fuel ctx entry moduleRoot = Some (r, tr) ->
  (exists e0, GetHostIoMachine ctx moduleRoot = inr e0 /\ tr = [] /\
     r = (GoGlobalState_zero, Some (fmt_Errorf "unabled to get WASM machine" e0)))
  \/
  (exists base mid, GetHostIoMachine ctx moduleRoot = inl base /\
     tr = EvCall CClone None :: mid ++ [EvCall CDestroy None] /\
     (forall c, count_call c mid = O) /\
     ((exists e0, r = (GoGlobalState_zero, Some e0) /\
         fst (SetPreimageResolver (preimageResolver entry) (Clone base)) = Some e0)
      \/ (exists stage inner, r = (GoGlobalState_zero, Some (fmt_Errorf stage inner)))
      \/ r = (GoGlobalState_zero, Some machine_fault)
      \/ (exists gs, r = (gs, None)))).
Proof.
  unfold ArbitratorSpawner_execute.
  destruct (GetHostIoMachine ctx moduleRoot) as [base|e0] eqn:Hload.
  2:{ intros Hx; inversion Hx; subst. left. by exists e0. }
  intros Hx. right. exists base. unfold execute_body in Hx.
  destruct (ArbitratorSpawner_loadEntryToMachine ctx entry _) as [e s] eqn:Hfeed.
  pose proof (loadEntryToMachine_quiet _ _ _ _ _ Hfeed) as (ltr & Hltr & Hlc & _).
  simpl in Hltr.
  destruct e as [e|].
  { rewrite call_eq in Hx. simpl in Hx. inversion Hx; subst. exists ltr.
    split; [done|]. split; [by rewrite Hltr|]. split; [exact Hlc|].
    apply loadEntryToMachine_error in Hfeed. simpl in Hfeed.
    destruct Hfeed as [Hr | (_ & stage & inner & ->)].
    - left. by exists e.
    - right; left. by eexists _, _. }
  pose proof (stepLoop_spec fuel ctx 0 s) as Hloop.
  destruct (stepLoop fuel ctx 0 s) as [[[|e] s']|]; [| |discriminate].
  - destruct Hloop as (ptr & n & Hptr & _ & Hpc & _).
    destruct (IsErrored (fst s')).
    + rewrite call_eq in Hx. simpl in Hx. inversion Hx; subst.
      exists (ltr ++ ptr ++ [EvLogError "machine entered errored state during attempted validation"]).
      split; [done|]. split; [rewrite Hptr, Hltr; simpl; by rewrite <- !app_assoc|].
      split; [intros c; rewrite !count_call_app, Hlc, Hpc; by destruct c|].
      right; right; left. done.
    + rewrite call_eq in Hx. simpl in Hx. inversion Hx; subst.
      exists (ltr ++ ptr).
      split; [done|]. split; [rewrite Hptr, Hltr; simpl; by rewrite <- !app_assoc|].
      split; [intros c; rewrite !count_call_app, Hlc, Hpc; by destruct c|].
      right; right; right. by eexists.
  - destruct Hloop as (ptr & n & Hptr & _ & Hpc).
    rewrite call_eq in Hx. simpl in Hx. inversion Hx; subst.
    exists (ltr ++ ptr).
    split; [done|]. split; [rewrite Hptr, Hltr; simpl; by rewrite <- !app_assoc|].
    split; [intros c; rewrite !count_call_app, Hlc, Hpc; by destruct c|].
    right; left. by eexists _, _.
Qed.

(** C10.  On the native backend, when the background execution ends with
    a non-nil error, the checkpoint it hands to [consumeResult] is the
    zero value: the run that [Launch] created is resolved with it, and
    [Result] then returns the zero checkpoint with that error. *)
Theorem C10_error_yields_zero_state fuel ctx (entry : ValidationInput) moduleRoot
  res e tr :
  ArbitratorSpawner_execute fuel ctx entry moduleRoot = Some ((res, Some e), tr) ->
  res = GoGlobalState_zero /\
  exists run',
    valRun_consumeResult res (Some e) (NewvalRun moduleRoot) = Normal run' /\
    valRun_Ready run' = true /\
    valRun_Result run' = (GoGlobalState_zero, Some e).
Proof.
  intros Hx.
  assert (Hres : res = GoGlobalState_zero).
  { apply execute_results in Hx.
    destruct Hx as [(e0 & _ & _ & Hr) | (base & mid & _ & _ & _ & Hr)].
    - by inversion Hr.
    - destruct Hr as [(e0 & Hr & _) | [(stage & inner & Hr) | [Hr | (gs & Hr)]]];
        by inversion Hr. }
  split; [exact Hres|]. subst res.
  eexists. split; [reflexivity|]. split; reflexivity.
Qed.

End ExecuteProps.

(** ** Ownership of the clone *)

Section CloneProps.
Context {M B : Type} `{ArbitratorMachine M} `{ArbMachineLoader M}
        `{ChallengeBackend M B}.

(** [execute] destroys the clone it made on every path that returns. *)
Lemma execute_destroys_clone fuel ctx (entry : ValidationInput) moduleRoot r tr :
  ArbitratorSpawner_execute fuel ctx entry moduleRoot = Some (r, tr) ->
  count_call CDestroy tr = count_call CClone tr /\ count_call CFreeze tr = O.
Proof.
  intros Hx. apply execute_results in Hx.
  destruct Hx as [(e0 & _ & -> & _) | (base & mid & _ & -> & Hc & _)]; [done|].
  change (EvCall CClone None :: mid ++ [EvCall CDestroy None])
    with ([EvCall CClone None] ++ mid ++ [EvCall CDestroy None]).
  rewrite !count_call_app, !Hc. done.
Qed.

(** When the feed succeeds, [CreateExecutionBackend] freezes the clone
    and hands it to the backend constructor. *)
Lemma CreateExecutionBackend_hands_off target ctx wasmModuleRoot
  (input : ValidationInput) (base : M) s :
  GetZeroStepMachine ctx wasmModuleRoot = inl base ->
  ArbitratorSpawner_loadEntryToMachine ctx input (Clone base, [EvCall CClone None])
    = (None, s) ->
  exists r e,
    ArbitratorSpawner_CreateExecutionBackend (B := B) target ctx wasmModuleRoot input
    = (r, snd s ++ [EvCall CFreeze None;
                    EvCall (CNewExecutionChallengeBackend target) e]).
Proof.
  intros Hload Hfeed. unfold ArbitratorSpawner_CreateExecutionBackend.
  rewrite Hload, Hfeed, call_eq. simpl.
  destruct (NewExecutionChallengeBackend (Freeze (fst s)) target);
    eexists _, _; rewrite <- app_assoc; reflexivity.
Qed.

(** C6, at [CreateExecutionBackend].  When feeding the input fails, the
    function returns the error, and the clone it made has been neither
    destroyed nor frozen and handed off. *)
Theorem C6_CreateExecutionBackend_leaks_clone target ctx wasmModuleRoot
  (input : ValidationInput) (base : M) e s :
  GetZeroStepMachine ctx wasmModuleRoot = inl base ->
  ArbitratorSpawner_loadEntryToMachine ctx input (Clone base, [EvCall CClone None])
    = (Some e, s) ->
  exists tr,
    ArbitratorSpawner_CreateExecutionBackend (B := B) target ctx wasmModuleRoot input
    = ((None, Some e), tr) /\
    count_call CClone tr = 1%nat /\
    count_call CDestroy tr = O /\
    count_call CFreeze tr = O.
Proof.
  intros Hload Hfeed. unfold ArbitratorSpawner_CreateExecutionBackend.
  rewrite Hload, Hfeed. exists (snd s). split; [reflexivity|].
  apply loadEntryToMachine_quiet in Hfeed.
  destruct Hfeed as (tr & -> & Hc & _). simpl.
  change (EvCall CClone None :: tr) with ([EvCall CClone None] ++ tr).
  rewrite !count_call_app, !Hc. done.
Qed.

End CloneProps.

(** ** The lifecycle *)

Section StartProps.
Context {SW : Type} `{StopWaiter SW}.


End StartProps.

(** ** Waiting for the future *)

(** C8.  [WaitReady] returns exactly when the future is resolved or the
    caller's context is done; it never changes the marker; and when the
    future is unresolved and the caller's context is done, it returns the
    caller's context error, after which [Ready] is still false, [Result]
    still fails with [ErrNotReady], and the world (the spawners'
    lifecycle contexts, the counters and the goroutines) is as before. *)
Theorem C8_WaitReady_gives_up_without_resolving {SW : Type} (w : World SW) (p : nat)
  (r : valRun) (ctx : context_Context) :
  heap w !! p = Some r ->
  ((exists e w', World_WaitReady w p ctx e w')
     <-> chanReady (marker r) = true \/ ctx_Done ctx = true) /\
  (forall e w', World_WaitReady w p ctx e w' -> w' = w) /\
  (chanReady (marker r) = false -> valRun_Ready r = false ->
   forall e w', World_WaitReady w p ctx e w' ->
     ctx_Done ctx = true /\ e = ctx_Err ctx /\ e <> None /\
     w' = w /\
     heap w' !! p = Some r /\
     valRun_Ready r = false /\
     valRun_Result r = (GoGlobalState_zero, Some ErrNotReady)).
Proof.
  intros Hp.
  assert (Hsame : forall e w', World_WaitReady w p ctx e w' -> w' = w).
  { intros e w' Hw. destruct Hw as [r0 e d Hr0 Hwait].
    assert (d = marker r0) by (by destruct Hwait). subst d.
    destruct w as [a j h q]; simpl in *. f_equal.
    apply list_insert_id. rewrite Hr0. by destruct r0. }
  split; [|split].
  - split.
    + intros (e & w' & Hw). destruct Hw as [r0 e d Hr0 Hwait].
      rewrite Hp in Hr0. inversion Hr0; subst r0.
      destruct Hwait; [by left | by right].
    + intros [Hc | Hd].
      * eexists _, _. econstructor; [exact Hp|]. by apply WaitReady_chanReady.
      * eexists _, _. econstructor; [exact Hp|]. by apply WaitReady_ctxDone.
  - exact Hsame.
  - intros Hopen Hnr e w' Hw. pose proof (Hsame _ _ Hw) as Heq.
    destruct Hw as [r0 e d Hr0 Hwait]. rewrite Heq. clear Heq.
    rewrite Hp in Hr0. inversion Hr0; subst r0.
    destruct Hwait as [Hc | Hd]; [congruence|].
    split; [exact Hd|]. split; [reflexivity|].
    split; [unfold ctx_Done in Hd; by destruct (ctx_Err ctx)|].
    split; [reflexivity|]. split; [exact Hp|]. split; [exact Hnr|].
    unfold valRun_Result. by rewrite Hnr.
Qed.

(** ** The in-flight counter *)

Lemma wrap_int32_small z : - 2^31 <= z < 2^31 -> wrap_int32 z = z.
Proof. intros Hz. unfold wrap_int32. rewrite Z.mod_small; lia. Qed.

Lemma wrap_int32_add z d : wrap_int32 (wrap_int32 z + d) = wrap_int32 (z + d).
Proof.
  unfold wrap_int32. f_equal.
  replace ((z + 2^31) mod 2^32 - 2^31 + d + 2^31) with ((z + 2^31) mod 2^32 + d) by lia.
  replace (z + d + 2^31) with ((z + 2^31) + d) by lia.
  rewrite Zplus_mod_idemp_l. reflexivity.
Qed.

Lemma wrap_int_small z : min_int <= z <= max_int -> wrap_int z = z.
Proof. unfold min_int, max_int, wrap_int. intros Hz. rewrite Z.mod_small; lia. Qed.

Lemma filter_insert_length {A : Type} (P : A -> Prop) `{forall x, Decision (P x)}
  (l : list A) (i : nat) (x y : A) :
  l !! i = Some x ->
  (length (filter P (<[i := y]> l)) + (if decide (P x) then 1 else 0)
   = length (filter P l) + (if decide (P y) then 1 else 0))%nat.
Proof.
  intros Hi.
  rewrite <- (take_drop_middle l i x Hi) at 2.
  rewrite insert_take_drop by (by eapply lookup_lt_Some).
  rewrite !filter_app, !length_app, !filter_cons.
  destruct (decide (P x)), (decide (P y)); simpl; lia.
Qed.

Lemma completed_le_launched b (p : list Goroutine) :
  (completed b p <= launched b p)%nat.
Proof.
  unfold completed, launched. induction p as [|g p IH]; [done|].
  rewrite !filter_cons.
  destruct (decide (g_backend g = b /\ g_pc g = Exited)) as [[Hb _]|Hn].
  - rewrite decide_True by exact Hb. simpl. lia.
  - destruct (decide (g_backend g = b)); simpl; lia.
Qed.

Lemma launched_snoc b (p : list Goroutine) g :
  launched b (p ++ [g])
  = (launched b p + (if decide (g_backend g = b) then 1 else 0))%nat.
Proof.
  unfold launched. rewrite filter_app, length_app, filter_cons, filter_nil.
  by destruct (decide (g_backend g = b)).
Qed.

Lemma completed_snoc_Running b (p : list Goroutine) g :
  g_pc g = Running -> completed b (p ++ [g]) = completed b p.
Proof.
  intros Hpc. unfold completed.
  rewrite filter_app, length_app, filter_cons, filter_nil.
  rewrite decide_False by (rewrite Hpc; intros [_ ?]; discriminate).
  simpl. lia.
Qed.

Lemma launched_set_pc b (p : list Goroutine) i g q :
  p !! i = Some g -> launched b (<[i := set_pc q g]> p) = launched b p.
Proof.
  intros Hi. unfold launched.
  pose proof (filter_insert_length (fun g => g_backend g = b) p i g (set_pc q g) Hi) as Hf.
  simpl in Hf. destruct (decide (g_backend g = b)); lia.
Qed.

Lemma completed_set_Resolved b (p : list Goroutine) i g :
  p !! i = Some g -> g_pc g = Running ->
  completed b (<[i := set_pc Resolved g]> p) = completed b p.
Proof.
  intros Hi Hpc. unfold completed.
  pose proof (filter_insert_length (fun g => g_backend g = b /\ g_pc g = Exited)
                p i g (set_pc Resolved g) Hi) as Hf.
  rewrite decide_False in Hf by (rewrite Hpc; intros [_ ?]; discriminate).
  rewrite decide_False in Hf by (simpl; intros [_ ?]; discriminate).
  lia.
Qed.

Lemma completed_set_Exited b (p : list Goroutine) i g :
  p !! i = Some g -> g_pc g = Resolved ->
  completed b (<[i := set_pc Exited g]> p)
  = (completed b p + (if decide (g_backend g = b) then 1 else 0))%nat.
Proof.
  intros Hi Hpc. unfold completed.
  pose proof (filter_insert_length (fun g => g_backend g = b /\ g_pc g = Exited)
                p i g (set_pc Exited g) Hi) as Hf.
  rewrite decide_False in Hf by (rewrite Hpc; intros [_ ?]; discriminate).
  simpl in Hf.
  destruct (decide (g_backend g = b)) as [Hb|Hb].
  - rewrite decide_True in Hf by done. lia.
  - rewrite decide_False in Hf by (intros [? _]; done). lia.
Qed.

Section SystemProps.
Context {M JM SW : Type} `{ArbitratorMachine M} `{ArbMachineLoader M}
        `{JitMachineLoader JM} `{StopWaiter SW}.

Lemma consumeResult_Normal res e (r r' : valRun) :
  valRun_consumeResult res e r = Normal r' ->
  chanReady (marker r) = false /\ resolved r' /\
  valRun_Ready r' = true /\ valRun_Result r' = (res, e) /\ root r' = root r.
Proof.
  unfold valRun_consumeResult, readyMarker_signalReady. simpl.
  destruct (chanReady (marker r)); [discriminate|].
  intros Hn; inversion Hn; subst. done.
Qed.


(** A resolved run cannot be resolved again: [close] panics. *)
Lemma consumeResult_resolved res e (r : valRun) :
  resolved r -> exists msg r', valRun_consumeResult res e r = Panic msg r'.
Proof.
  intros [Hc _]. unfold valRun_consumeResult, readyMarker_signalReady. simpl.
  rewrite Hc. by eexists _, _.
Qed.



Lemma Inv_init (w : World SW) : initial (SW := SW) w -> Inv w.
Proof.
  intros (swa & swj & ca & cj & ->). unfold Inv, init_world; simpl.
  split; [done|]. split; [intros i g Hi; by rewrite lookup_nil in Hi|].
  by intros [].
Qed.

Lemma Inv_ext (w w' : World SW) :
  heap w' = heap w -> pool w' = pool w ->
  (forall b, count_of b w' = count_of b w) ->
  Inv w -> Inv w'.
Proof.
  intros Hh Hp Hc (Hlen & Hruns & Hcnt). unfold Inv.
  rewrite Hh, Hp. split; [exact Hlen|]. split; [exact Hruns|].
  intros b. rewrite Hc. apply Hcnt.
Qed.

Lemma Inv_Launch b entry moduleRoot (w : World SW) :
  Inv w -> Inv (fst (Launch b entry moduleRoot w)).
Proof.
  intros (Hlen & Hruns & Hcnt).
  assert (Hgoal : forall g, g_run g = length (heap w) -> g_pc g = Running ->
            forall w' : World SW, heap w' = heap w ++ [NewvalRun moduleRoot] ->
                       pool w' = pool w ++ [g] ->
                       (forall b', count_of b' w'
                          = if decide (g_backend g = b')
                            then atomic_AddInt32 (count_of b' w) 1 else count_of b' w) ->
                       Inv w').
  { intros g Hrun Hpc w' Hh Hp Hc. unfold Inv. rewrite Hh, Hp.
    split; [rewrite !length_app; simpl; lia|]. split.
    - intros i g' Hi. apply lookup_app_Some in Hi.
      destruct Hi as [Hi | [Hge Hi]].
      + destruct (Hruns i g' Hi) as (Hr & r & Hhr & Hrest).
        split; [exact Hr|]. exists r. split; [|exact Hrest].
        by apply lookup_app_l_Some.
      + apply list_lookup_singleton_Some in Hi. destruct Hi as [Hi0 ->].
        assert (i = length (pool w)) by lia. subst i.
        split; [lia|]. exists (NewvalRun moduleRoot). split.
        * rewrite <- Hlen. rewrite lookup_app_r by lia.
          by rewrite Nat.sub_diag.
        * split; [intros _; done | intros Hne; done].
    - intros b'. rewrite Hc, launched_snoc, (completed_snoc_Running _ _ _ Hpc).
      destruct (decide (g_backend g = b')).
      + unfold atomic_AddInt32. rewrite Hcnt, wrap_int32_add. f_equal. lia.
      + rewrite Hcnt. f_equal. lia. }
  destruct b; simpl.
  - eapply (Hgoal {| g_backend := Arbitrator; g_run := length (heap w);
                     g_entry := entry; g_root := moduleRoot; g_pc := Running |});
      simpl; try reflexivity.
    intros []; simpl; done.
  - eapply (Hgoal {| g_backend := Jit; g_run := length (heap w);
                     g_entry := entry; g_root := moduleRoot; g_pc := Running |});
      simpl; try reflexivity.
    intros []; simpl; done.
Qed.

Lemma Inv_resolve (w : World SW) i g r' res e r :
  pool w !! i = Some g -> g_pc g = Running ->
  heap w !! g_run g = Some r ->
  valRun_consumeResult res e r = Normal r' ->
  Inv w -> Inv (resolve i g r' w).
Proof.
  intros Hi Hpc Hr Hcons (Hlen & Hruns & Hcnt).
  destruct (Hruns i g Hi) as (Hrun & _).
  apply consumeResult_Normal in Hcons. destruct Hcons as (_ & Hres & _).
  unfold Inv, resolve, set_heap_pool; simpl.
  split; [by rewrite !length_insert|]. split.
  - intros j g' Hj. destruct (decide (j = i)) as [->|Hne].
    + rewrite list_lookup_insert_eq in Hj by (by eapply lookup_lt_Some).
      inversion Hj; subst g'. simpl. split; [exact Hrun|].
      exists r'. rewrite Hrun.
      rewrite list_lookup_insert_eq by (rewrite Hlen; by eapply lookup_lt_Some).
      split; [done|]. split; [discriminate | intros _; exact Hres].
    + rewrite list_lookup_insert_ne in Hj by done.
      destruct (Hruns j g' Hj) as (Hr' & r0 & Hh0 & Hrest).
      split; [exact Hr'|]. exists r0. split; [|exact Hrest].
      rewrite list_lookup_insert_ne by (rewrite Hrun; done). exact Hh0.
  - intros b. rewrite (launched_set_pc _ _ _ _ _ Hi),
      (completed_set_Resolved _ _ _ _ Hi Hpc).
    specialize (Hcnt b). destruct b; exact Hcnt.
Qed.

Lemma Inv_exit (w : World SW) i g :
  pool w !! i = Some g -> g_pc g = Resolved ->
  Inv w -> Inv (exit i g w).
Proof.
  intros Hi Hpc (Hlen & Hruns & Hcnt).
  assert (Hpart : forall w' : World SW, heap w' = heap w ->
            pool w' = <[i := set_pc Exited g]> (pool w) ->
            (forall b, count_of b w'
               = if decide (g_backend g = b)
                 then atomic_AddInt32 (count_of b w) (-1) else count_of b w) ->
            Inv w').
  { intros w' Hh Hp Hc. unfold Inv. rewrite Hh, Hp.
    split; [by rewrite length_insert|]. split.
    - intros j g' Hj. destruct (decide (j = i)) as [->|Hne].
      + rewrite list_lookup_insert_eq in Hj by (by eapply lookup_lt_Some).
        inversion Hj; subst g'. simpl.
        destruct (Hruns i g Hi) as (Hrun & r0 & Hh0 & _ & Hres).
        split; [exact Hrun|]. exists r0. split; [exact Hh0|].
        split; [discriminate|]. intros _. apply Hres. by rewrite Hpc.
      + rewrite list_lookup_insert_ne in Hj by done. by apply Hruns.
    - intros b. rewrite Hc, (launched_set_pc _ _ _ _ _ Hi),
        (completed_set_Exited _ _ _ _ Hi Hpc).
      destruct (decide (g_backend g = b)).
      + unfold atomic_AddInt32. rewrite Hcnt, wrap_int32_add. f_equal. lia.
      + rewrite Hcnt. f_equal. lia. }
  unfold exit, decrement. destruct (g_backend g) eqn:Hb.
  - apply Hpart; simpl; try reflexivity. intros []; simpl; done.
  - apply Hpart; simpl; try reflexivity. intros []; simpl; done.
Qed.

Lemma ArbitratorSpawner_Start_count ctx (s v : ArbitratorSpawner SW) :
  ArbitratorSpawner_Start ctx s = Some v -> arb_count v = arb_count s.
Proof.
  unfold ArbitratorSpawner_Start.
  destruct (negb _); [|intros Hs; by inversion Hs].
  destruct (StopWaiter_Start ctx (arb_StopWaiter s)); [|discriminate].
  intros Hs; by inversion Hs.
Qed.

Lemma JitSpawner_Start_count ctx (s v : JitSpawner SW) :
  JitSpawner_Start ctx s = Some v -> jit_count v = jit_count s.
Proof.
  unfold JitSpawner_Start.
  destruct (StopWaiter_Start ctx (jit_StopWaiter s)); [|discriminate].
  intros Hs; by inversion Hs.
Qed.

Lemma Inv_step (w w' : World SW) :
  step (M := M) (JM := JM) w w' -> Inv w -> Inv w'.
Proof.
  intros Hstep HI. destruct Hstep.
  - by apply Inv_Launch.
  - by eapply Inv_resolve.
  - by apply Inv_exit.
  - eapply Inv_ext; [| | |exact HI]; try reflexivity.
    intros []; simpl; [by eapply ArbitratorSpawner_Start_count | done].
  - eapply Inv_ext; [| | |exact HI]; try reflexivity.
    intros []; simpl; [done | by eapply JitSpawner_Start_count].
  - eapply Inv_ext; [| | |exact HI]; try reflexivity; try by intros [].
  - eapply Inv_ext; [| | |exact HI]; try reflexivity; try by intros [].
  - eapply Inv_ext; [| | |exact HI]; try reflexivity; try by intros [].
  - eapply Inv_ext; [| | |exact HI]; try reflexivity; try by intros [].
Qed.

Lemma Inv_steps (w w' : World SW) :
  rtc (step (M := M) (JM := JM)) w w' -> Inv w -> Inv w'.
Proof. induction 1 as [|w1 w2 w3 Hs _ IH]; [done|]. intros HI. apply IH. by eapply Inv_step. Qed.

Lemma Inv_reachable (w : World SW) : reachable (M := M) (JM := JM) w -> Inv w.
Proof. intros (w0 & Hw0 & Hs). eapply Inv_steps; [exact Hs|]. by apply Inv_init. Qed.

End SystemProps.

Section FutureProps.
Context {M JM SW : Type} `{ArbitratorMachine M} `{ArbMachineLoader M}
        `{JitMachineLoader JM} `{StopWaiter SW}.

Lemma reachable_step (w w' : World SW) :
  reachable (M := M) (JM := JM) w -> step (M := M) (JM := JM) w w' ->
  reachable (M := M) (JM := JM) w'.
Proof.
  intros (w0 & Hw0 & Hs) Hstep. exists w0. split; [exact Hw0|].
  eapply rtc_r; eassumption.
Qed.




End FutureProps.

Section RoomProps.
Context {M JM SW : Type} `{ArbitratorMachine M} `{ArbMachineLoader M}
        `{JitMachineLoader JM} `{StopWaiter SW}.
Variable runtime_NumCPU : Z.

Lemma Room_eq b (w : World SW) :
  Room runtime_NumCPU b w = wrap_int (limit_of runtime_NumCPU b w - count_of b w).
Proof. by destruct b. Qed.

Lemma count_of_Launch b entry moduleRoot (w : World SW) :
  count_of b (fst (Launch b entry moduleRoot w)) = atomic_AddInt32 (count_of b w) 1.
Proof. by destruct b. Qed.

Lemma count_of_exit i g (w : World SW) :
  count_of (g_backend g) (exit i g w) = atomic_AddInt32 (count_of (g_backend g) w) (-1).
Proof. unfold exit, decrement. by destruct (g_backend g). Qed.

(** C4.  In every reachable world whose in-flight executions fit the
    32-bit counter and whose limit minus in-flight fits an [int]: the
    counter of a spawner is the number of its launches minus the number of
    its completed executions; [Room] is the configured limit (the number
    of CPUs when it is zero) minus that number, with no lower bound at
    zero; [Launch] raises the counter by one and a completing execution
    lowers it by one; and between two observation points the counter
    changes by the launches minus the completions in between, so that it
    is back at its earlier value once the executions launched since have
    completed. *)
Theorem C4_counter_and_room (b : Backend) (w : World SW) :
  reachable (M := M) (JM := JM) w ->
  Z.of_nat (launched b (pool w)) - Z.of_nat (completed b (pool w)) <= max_int32 ->
  min_int <= limit_of runtime_NumCPU b w
             - (Z.of_nat (launched b (pool w)) - Z.of_nat (completed b (pool w)))
          <= max_int ->
  count_of b w = Z.of_nat (launched b (pool w)) - Z.of_nat (completed b (pool w)) /\
  Room runtime_NumCPU b w
    = limit_of runtime_NumCPU b w
      - (Z.of_nat (launched b (pool w)) - Z.of_nat (completed b (pool w))) /\
  (forall entry moduleRoot,
     count_of b w < max_int32 ->
     count_of b (fst (Launch b entry moduleRoot w)) = count_of b w + 1 /\
     launched b (pool (fst (Launch b entry moduleRoot w))) = S (launched b (pool w)) /\
     completed b (pool (fst (Launch b entry moduleRoot w))) = completed b (pool w)) /\
  (forall i g,
     pool w !! i = Some g -> g_pc g = Resolved -> g_backend g = b ->
     count_of b (exit i g w) = count_of b w - 1 /\
     launched b (pool (exit i g w)) = launched b (pool w) /\
     completed b (pool (exit i g w)) = S (completed b (pool w))) /\
  (forall w',
     rtc (step (M := M) (JM := JM)) w w' ->
     Z.of_nat (launched b (pool w')) - Z.of_nat (completed b (pool w')) <= max_int32 ->
     count_of b w'
     = count_of b w
       + (Z.of_nat (launched b (pool w')) - Z.of_nat (launched b (pool w)))
       - (Z.of_nat (completed b (pool w')) - Z.of_nat (completed b (pool w)))).
Proof.
  intros Hreach Hfit Hint. pose proof (Inv_reachable _ Hreach) as (_ & _ & Hcnt).
  pose proof (completed_le_launched b (pool w)) as Hle.
  assert (Hc : count_of b w
               = Z.of_nat (launched b (pool w)) - Z.of_nat (completed b (pool w))).
  { rewrite Hcnt. apply wrap_int32_small. unfold max_int32 in Hfit. lia. }
  split; [exact Hc|]. split; [|split; [|split]].
  - rewrite Room_eq, Hc. by apply wrap_int_small.
  - intros entry moduleRoot Hlt. rewrite count_of_Launch. unfold atomic_AddInt32.
    split; [apply wrap_int32_small; unfold max_int32 in *; lia|].
    assert (Hp : exists g, g_backend g = b /\ g_pc g = Running /\
                   pool (fst (Launch b entry moduleRoot w)) = pool w ++ [g]).
    { destruct b; simpl; eexists; (split; [|split; [|reflexivity]]); done. }
    destruct Hp as (g & Hb & Hpc & ->).
    rewrite launched_snoc, (completed_snoc_Running _ _ _ Hpc).
    rewrite decide_True by exact Hb. lia.
  - intros i g Hi Hpc Hb. subst b. rewrite count_of_exit. unfold atomic_AddInt32.
    split; [apply wrap_int32_small; unfold max_int32 in *; lia|].
    assert (Hp : pool (exit i g w) = <[i := set_pc Exited g]> (pool w))
      by (unfold exit, decrement; by destruct (g_backend g)).
    rewrite Hp, (launched_set_pc _ _ _ _ _ Hi), (completed_set_Exited _ _ _ _ Hi Hpc).
    rewrite decide_True by reflexivity. lia.
  - intros w' Hsteps Hfit'.
    assert (Hreach' : reachable (M := M) (JM := JM) w').
    { destruct Hreach as (w0 & Hw0 & Hs). exists w0. split; [exact Hw0|].
      by etransitivity. }
    pose proof (Inv_reachable _ Hreach') as (_ & _ & Hcnt').
    pose proof (completed_le_launched b (pool w')) as Hle'.
    rewrite Hc, Hcnt', wrap_int32_small by (unfold max_int32 in Hfit'; lia). lia.
Qed.

End RoomProps.

Section LaunchProps.
Context {M JM SW : Type} `{ArbitratorMachine M} `{ArbMachineLoader M}
        `{JitMachineLoader JM} `{StopWaiter SW}.

Lemma Launch_run b entry moduleRoot (w : World SW) :
  Inv w ->
  snd (Launch b entry moduleRoot w) = length (heap w) /\
  heap (fst (Launch b entry moduleRoot w)) !! length (heap w)
    = Some (NewvalRun moduleRoot) /\
  pool (fst (Launch b entry moduleRoot w)) !! length (heap w)
    = Some {| g_backend := b; g_run := length (heap w); g_entry := entry;
              g_root := moduleRoot; g_pc := Running |}.
Proof.
  intros (Hlen & _). destruct b; simpl; unfold LaunchThread.
  - split; [done|]. split.
    + rewrite lookup_app_r by lia. by rewrite Nat.sub_diag.
    + rewrite Hlen, lookup_app_r by lia. by rewrite Nat.sub_diag.
  - split; [done|]. split.
    + rewrite lookup_app_r by lia. by rewrite Nat.sub_diag.
    + rewrite Hlen, lookup_app_r by lia. by rewrite Nat.sub_diag.
Qed.


End LaunchProps.

(** ** The preimage file *)

Lemma byte_of_mod v : byte_of v = v mod 256.
Proof. unfold byte_of. change 255 with (Z.ones 8). by rewrite Z.land_ones by lia. Qed.

Lemma byte_of_shiftr_wrap n k :
  0 <= k -> Z.land (Z.shiftr (Z.ones 64) k) 255 = 255 ->
  byte_of (Z.shiftr (wrap_uint64 n) k) = (n / 2 ^ k) mod 256.
Proof.
  intros Hk Hmask. unfold wrap_uint64, byte_of.
  rewrite <- (Z.land_ones n 64) by lia.
  rewrite Z.shiftr_land, <- Z.land_assoc, Hmask.
  change 255 with (Z.ones 8). rewrite Z.land_ones by lia.
  by rewrite Z.shiftr_div_pow2.
Qed.

(** The bytes that [PutUint64] stores are the little-endian digits. *)
Lemma PutUint64_le64_spec n :
  binary_LittleEndian_PutUint64 (wrap_uint64 n) = le64_spec n.
Proof.
  unfold binary_LittleEndian_PutUint64, le64_spec. simpl.
  rewrite <- (Z.shiftr_0_r (wrap_uint64 n)) at 1.
  rewrite !byte_of_shiftr_wrap by (try lia; reflexivity).
  reflexivity.
Qed.

Lemma le_decode_digits n (j k : nat) :
  0 <= n ->
  le_decode (map (fun i => (n / 256 ^ Z.of_nat i) mod 256) (seq j k))
  = (n / 256 ^ Z.of_nat j) mod 256 ^ Z.of_nat k.
Proof.
  intros Hn. revert j. induction k as [|k IH]; intros j.
  - simpl. by rewrite Z.mod_1_r.
  - simpl seq. simpl map. simpl le_decode. rewrite IH.
    replace (Z.of_nat (S k)) with (1 + Z.of_nat k) by lia.
    replace (Z.of_nat (S j)) with (Z.of_nat j + 1) by lia.
    rewrite !Z.pow_add_r by lia. change (256 ^ 1) with 256.
    rewrite <- Z.div_div by lia.
    rewrite Z.rem_mul_r by lia. reflexivity.
Qed.

Lemma le_decode_le64_spec n : 0 <= n < 2^64 -> le_decode (le64_spec n) = n.
Proof.
  intros Hn. unfold le64_spec. rewrite le_decode_digits by lia.
  change (256 ^ Z.of_nat 0) with 1. rewrite Z.div_1_r.
  apply Z.mod_small. change (256 ^ Z.of_nat 8) with (2 ^ 64). lia.
Qed.

Lemma record_written_spec data : record_written data = record_spec data.
Proof. unfold record_written, record_spec. by rewrite PutUint64_le64_spec. Qed.

Lemma io_bind_inl {A B : Type} (c : IO A) (k : A -> IO B) o b o' :
  io_bind c k o = (inl b, o') ->
  exists a o1, c o = (inl a, o1) /\ k a o1 = (inl b, o').
Proof.
  unfold io_bind. destruct (c o) as [[a|e] o1]; [|discriminate].
  intros Hk. by exists a, o1.
Qed.

Lemma untouched_ret {A : Type} p (a : A) : untouched p (io_ret a).
Proof. intros o r o' Hc. by inversion Hc. Qed.

Lemma untouched_bind {A B : Type} p (c : IO A) (k : A -> IO B) :
  untouched p c -> (forall a, untouched p (k a)) -> untouched p (io_bind c k).
Proof.
  intros Hc Hk o r o'. unfold io_bind.
  destruct (c o) as [[a|e] o1] eqn:Hco.
  - intros Hka. rewrite (Hk a _ _ _ Hka). by eapply Hc.
  - intros Hr; inversion Hr; subst. by eapply Hc.
Qed.

Lemma untouched_syscall p effect :
  (forall f, effect f !! p = f !! p) -> untouched p (syscall effect).
Proof.
  intros He o r o'. unfold syscall.
  destruct (os_faults o) as [|[e|] rest]; intros Hr; inversion Hr; subst; simpl; done.
Qed.

Lemma untouched_for {A : Type} p (l : list A) (body : A -> IO unit) :
  (forall a, untouched p (body a)) -> untouched p (io_for l body).
Proof.
  intros Hb. induction l as [|a l IH]; simpl.
  - apply untouched_ret.
  - apply untouched_bind; [apply Hb | intros _; exact IH].
Qed.

Lemma untouched_File_Write p file data : file <> p -> untouched p (File_Write file data).
Proof. intros Hne. apply untouched_syscall. intros f. by apply lookup_alter_ne. Qed.

Lemma untouched_WriteFile p path data : path <> p -> untouched p (os_WriteFile path data).
Proof. intros Hne. apply untouched_syscall. intros f. by apply lookup_insert_ne. Qed.

Lemma succeeds_ret {A : Type} (a : A) : succeeds (io_ret a).
Proof. intros o Ho. by exists a, o. Qed.

Lemma succeeds_bind {A B : Type} (c : IO A) (k : A -> IO B) :
  succeeds c -> (forall a, succeeds (k a)) -> succeeds (io_bind c k).
Proof.
  intros Hc Hk o Ho. destruct (Hc o Ho) as (a & o1 & Hco & Ho1).
  destruct (Hk a o1 Ho1) as (b & o2 & Hka & Ho2).
  exists b, o2. unfold io_bind. rewrite Hco. done.
Qed.

Lemma succeeds_syscall effect : succeeds (syscall effect).
Proof. intros o Ho. unfold syscall. rewrite Ho. by eexists _, _. Qed.

Lemma succeeds_for {A : Type} (l : list A) (body : A -> IO unit) :
  (forall a, succeeds (body a)) -> succeeds (io_for l body).
Proof.
  intros Hb. induction l as [|a l IH]; simpl.
  - apply succeeds_ret.
  - apply succeeds_bind; [apply Hb | intros _; exact IH].
Qed.

Lemma succeeds_OpenFile path : succeeds (os_OpenFile path).
Proof.
  apply succeeds_bind; [apply succeeds_syscall | intros _; apply succeeds_ret].
Qed.

Lemma os_Create_content path o f o' :
  os_Create path o = (inl f, o') -> f = path /\ os_files o' !! path = Some [].
Proof.
  unfold os_Create, os_OpenFile, io_bind, io_ret, syscall.
  destruct (os_faults o) as [|[e|] rest]; intros Hr; inversion Hr; subst; simpl;
    split; try reflexivity; apply lookup_insert_eq.
Qed.

Lemma File_Write_content file data o o' acc :
  os_files o !! file = Some acc ->
  File_Write file data o = (inl tt, o') ->
  os_files o' !! file = Some (acc ++ data).
Proof.
  intros Hacc. unfold File_Write, syscall.
  destruct (os_faults o) as [|[e|] rest]; intros Hr; inversion Hr; subst; simpl;
    unfold bytes in *; rewrite lookup_alter_eq, Hacc; reflexivity.
Qed.

(** The loop over the preimages appends one record per entry, in the
    order of the iteration. *)
Lemma preimage_loop_content file (l : list (N * bytes)) o o' acc :
  os_files o !! file = Some acc ->
  io_for l (fun kv =>
    let data := snd kv in
    let lenbytes := binary_LittleEndian_PutUint64 (wrap_uint64 (len data)) in
    _ <- File_Write file lenbytes ;; File_Write file data) o = (inl tt, o') ->
  os_files o' !! file = Some (acc ++ concat (map (fun kv => record_written (snd kv)) l)).
Proof.
  revert o acc. induction l as [|kv l IH]; intros o acc Hacc; simpl.
  - intros Hr; inversion Hr; subst. by rewrite app_nil_r.
  - intros Hr. apply io_bind_inl in Hr. destruct Hr as ([] & o2 & Hbody & Hrest).
    apply io_bind_inl in Hbody. destruct Hbody as ([] & o1 & Hw1 & Hw2).
    pose proof (File_Write_content _ _ _ _ _ Hacc Hw1) as H1.
    pose proof (File_Write_content _ _ _ _ _ H1 Hw2) as H2.
    rewrite (IH _ _ H2 Hrest). unfold record_written. by rewrite <- !app_assoc.
Qed.

Lemma append_inj_l (d a b : string) : d +:+ a = d +:+ b -> a = b.
Proof. induction d as [|c d IH]; simpl; [done|]. intros Heq. inversion Heq. auto. Qed.

Lemma filepath_Join_base_inj (dir a b : string) :
  filepath_Join [dir; a] = filepath_Join [dir; b] -> a = b.
Proof.
  simpl. intros Heq. apply append_inj_l in Heq. simpl in Heq. by inversion Heq.
Qed.

Section ExporterProps.
Variable rootPath : string.
Variable getMachinePath : Hash -> string.
Variable launchTime : string.
Variable os_Executable : string + error.
Variable filepath_Dir : string -> string.
Variable Hash_String : Hash -> string.
Variable range_order : gmap N bytes -> list (N * bytes).

Ltac io_succeeds :=
  repeat first
    [ apply succeeds_ret | apply succeeds_syscall | apply succeeds_OpenFile
    | apply succeeds_for; intros ? | apply succeeds_bind; [|intros ?] ].

Lemma WriteToFile_succeeds config input expOut moduleRoot :
  succeeds (ArbitratorSpawner_WriteToFile rootPath getMachinePath launchTime
              os_Executable filepath_Dir Hash_String range_order
              config input expOut moduleRoot).
Proof.
  unfold ArbitratorSpawner_WriteToFile, File_WriteString, File_Write,
    os_WriteFile, os_MkdirAll, os_Create.
  cbv zeta. destruct (HasDelayedMsg input); io_succeeds.
Qed.

(** C9.  When the export goes through, [preimages.bin] holds exactly one
    record per entry of the preimage mapping, in the order in which the
    mapping was iterated: the entry's length as eight little-endian bytes,
    then the entry's bytes, and nothing else.  With no I/O failure the
    export does go through. *)
Theorem C9_preimages_bin_layout config (input : ValidationInput) expOut moduleRoot o :
  range_order (Preimages input) ≡ₚ map_to_list (Preimages input) ->
  (os_faults o = [] ->
   exists o', ArbitratorSpawner_WriteToFile rootPath getMachinePath launchTime
                os_Executable filepath_Dir Hash_String range_order
                config input expOut moduleRoot o = (inl tt, o')) /\
  (forall o',
     ArbitratorSpawner_WriteToFile rootPath getMachinePath launchTime
       os_Executable filepath_Dir Hash_String range_order
       config input expOut moduleRoot o = (inl tt, o') ->
     os_files o' !! preimagesPath rootPath launchTime config input
       = Some (preimages_bin_spec (range_order (Preimages input))) /\
     length (range_order (Preimages input)) = size (Preimages input) /\
     (forall h d, (h, d) ∈ range_order (Preimages input)
                  <-> Preimages input !! h = Some d) /\
     (forall kv, kv ∈ range_order (Preimages input) -> len (snd kv) < 2^64 ->
        le_decode (le64_spec (len (snd kv))) = len (snd kv))).
Proof.
  intros Hperm. split.
  { intros Ho. destruct (WriteToFile_succeeds config input expOut moduleRoot o Ho)
      as ([] & o' & Hw & _). exists o'. exact Hw. }
  intros o' Hw. split; [|split; [|split]].
  2:{ rewrite Hperm. apply length_map_to_list. }
  2:{ intros h d. rewrite Hperm. apply elem_of_map_to_list. }
  2:{ intros kv _ Hlt. apply le_decode_le64_spec. unfold len in *. lia. }
  unfold ArbitratorSpawner_WriteToFile in Hw. cbv zeta in Hw.
  fold (outDir rootPath launchTime config input) in Hw.
  fold (preimagesPath rootPath launchTime config input) in Hw.
  set (dir := outDir rootPath launchTime config input) in *.
  set (p := preimagesPath rootPath launchTime config input) in *.
  apply io_bind_inl in Hw. destruct Hw as ([] & o1 & _ & Hw).
  apply io_bind_inl in Hw. destruct Hw as (cmdFile & o2 & Hopen & Hw).
  apply os_Create_content in Hopen. destruct Hopen as [-> _].
  apply io_bind_inl in Hw. destruct Hw as ([] & o3 & _ & Hw).
  apply io_bind_inl in Hw. destruct Hw as ([] & o4 & _ & Hw).
  apply io_bind_inl in Hw. destruct Hw as ([] & o5 & _ & Hw).
  apply io_bind_inl in Hw. destruct Hw as ([] & o6 & _ & Hw).
  apply io_bind_inl in Hw. destruct Hw as (preimageFile & o7 & Hcreate & Hw).
  apply os_Create_content in Hcreate. destruct Hcreate as [-> Hempty].
  apply io_bind_inl in Hw. destruct Hw as ([] & o8 & Hloop & Hw).
  pose proof (preimage_loop_content _ _ _ _ _ Hempty Hloop) as Hcontent.
  simpl in Hcontent.
  assert (Hcmd : filepath_Join [dir; "run-prover.sh"] <> p).
  { intros Heq. apply filepath_Join_base_inj in Heq. discriminate. }
  assert (Hrest : os_files o' !! p = os_files o8 !! p).
  { revert Hw. apply untouched_bind; [by apply untouched_File_Write|]. intros _.
    apply untouched_bind; [|intros _; by apply untouched_File_Write].
    destruct (HasDelayedMsg input); [|apply untouched_ret].
    apply untouched_bind; [by apply untouched_File_Write|]. intros _.
    apply untouched_bind; [|intros _; by apply untouched_File_Write].
    apply untouched_WriteFile. intros Heq.
    apply filepath_Join_base_inj in Heq. simpl in Heq. discriminate. }
  unfold bytes in *. rewrite Hrest, Hcontent. f_equal. unfold preimages_bin_spec. f_equal.
  apply map_ext. intros kv. apply record_written_spec.
Qed.

End ExporterProps.

(** * The properties on the mock machine *)

Lemma pair_eta_fst {A B : Type} (x : A * B) (a : A) : fst x = a -> x = (a, snd x).
Proof. destruct x; simpl; by intros ->. Qed.

Lemma mock_launched_reachable moduleRoot :
  reachable (M := Mock) (JM := unit) (mock_launched moduleRoot).
Proof.
  exists mock_world. split.
  - by exists MockSW_zero, MockSW_zero, DefaultArbitratorSpawnerConfig,
      DefaultJitSpawnerConfig.
  - eapply rtc_l; [apply (step_Launch Arbitrator mock_entry moduleRoot)|].
    apply rtc_refl.
Qed.

Lemma mock_overloaded_reachable : reachable (M := Mock) (JM := unit) mock_overloaded.
Proof.
  eexists. split.
  - by eexists MockSW_zero, MockSW_zero, _, DefaultJitSpawnerConfig.
  - eapply rtc_l; [apply (step_Launch Arbitrator mock_entry 1%N)|].
    eapply rtc_l; [apply (step_Launch Arbitrator mock_entry 1%N)|].
    apply rtc_refl.
Qed.






Lemma C4_counter_and_room_witness :
  reachable (M := Mock) (JM := unit) mock_overloaded /\
  count_of Arbitrator mock_overloaded = 2 /\
  Room 8 Arbitrator mock_overloaded = -1.
Proof.
  split; [apply mock_overloaded_reachable|].
  destruct (C4_counter_and_room (M := Mock) (JM := unit) 8 Arbitrator mock_overloaded
              mock_overloaded_reachable)
    as (Hcount & Hroom & _).
  - vm_compute. discriminate.
  - split; vm_compute; discriminate.
  - split; [rewrite Hcount | rewrite Hroom]; reflexivity.
Defined.

Lemma C5_feed_order_witness :
  ArbitratorSpawner_loadEntryToMachine context_Background mock_entry_delayed
    (mock_cloned 1%N)
  = (None, snd (ArbitratorSpawner_loadEntryToMachine context_Background
                  mock_entry_delayed (mock_cloned 1%N))) /\
  exists tr,
    snd (snd (ArbitratorSpawner_loadEntryToMachine context_Background
                mock_entry_delayed (mock_cloned 1%N)))
    = snd (mock_cloned 1%N) ++ tr /\
    seq_fed tr = [(5, [97; 98; 99]); (6, [100])] /\
    delayed_fed tr = [(9, [1; 2])].
Proof.
  assert (Hload : ArbitratorSpawner_loadEntryToMachine context_Background
                    mock_entry_delayed (mock_cloned 1%N)
                  = (None, snd (ArbitratorSpawner_loadEntryToMachine context_Background
                                  mock_entry_delayed (mock_cloned 1%N))))
    by reflexivity.
  split; [exact Hload|].
  destruct (C5_feed_order (M := Mock) context_Background mock_entry_delayed
              (mock_cloned 1%N) None _ Hload)
    as (tr & Htr & _ & Hall & _ & _ & Hdelayed & _).
  exists tr. split; [exact Htr|]. split; [by apply Hall|].
  destruct (Hdelayed eq_refl) as [Hd | [_ (n & e0 & Hfail)]]; [exact Hd|].
  exfalso. vm_compute in Htr. inversion Htr; subst tr. vm_compute in Hfail.
  destruct n as [|[|[|[|[|[|n]]]]]]; discriminate.
Defined.

Lemma C6_CreateExecutionBackend_leaks_clone_witness :
  GetZeroStepMachine (M := Mock) context_Background 5%N = inl (mock_machine 5%N) /\
  ArbitratorSpawner_loadEntryToMachine context_Background mock_entry (mock_cloned 5%N)
  = (Some (fmt_Errorf "error while setting global state for proving"
             (errors_New "bad state")),
     snd (ArbitratorSpawner_loadEntryToMachine context_Background mock_entry
            (mock_cloned 5%N))) /\
  exists tr,
    ArbitratorSpawner_CreateExecutionBackend (M := Mock) (B := Mock) 4
      context_Background 5%N mock_entry
    = ((None, Some (fmt_Errorf "error while setting global state for proving"
                      (errors_New "bad state"))), tr) /\
    count_call CClone tr = 1%nat /\
    count_call CDestroy tr = O /\
    count_call CFreeze tr = O.
Proof.
  split; [reflexivity|].
  assert (Hload : ArbitratorSpawner_loadEntryToMachine context_Background mock_entry
                    (mock_cloned 5%N)
                  = (Some (fmt_Errorf "error while setting global state for proving"
                             (errors_New "bad state")),
                     snd (ArbitratorSpawner_loadEntryToMachine context_Background
                            mock_entry (mock_cloned 5%N))))
    by reflexivity.
  split; [exact Hload|].
  exact (C6_CreateExecutionBackend_leaks_clone (M := Mock) (B := Mock) 4
           context_Background 5%N mock_entry (mock_machine 5%N) _ _ eq_refl Hload).
Defined.



Lemma C8_WaitReady_gives_up_without_resolving_witness :
  heap (mock_launched 1%N) !! O = Some (NewvalRun 1%N) /\
  forall e w',
    World_WaitReady (mock_launched 1%N) O mock_cancelled e w' ->
    e = Some context_Canceled /\ w' = mock_launched 1%N /\
    valRun_Result (NewvalRun 1%N) = (GoGlobalState_zero, Some ErrNotReady).
Proof.
  split; [reflexivity|]. intros e w' Hwait.
  destruct (C8_WaitReady_gives_up_without_resolving (mock_launched 1%N) O
              (NewvalRun 1%N) mock_cancelled eq_refl) as (_ & _ & Hgiveup).
  destruct (Hgiveup eq_refl eq_refl e w' Hwait) as (_ & He & _ & Hw & _ & _ & Hres).
  split; [exact He|]. split; [exact Hw | exact Hres].
Defined.

Lemma C9_preimages_bin_layout_witness :
  mock_order (Preimages mock_entry_delayed) ≡ₚ map_to_list (Preimages mock_entry_delayed) /\
  fst (mock_export empty_os) = inl tt /\
  os_files (snd (mock_export empty_os))
    !! preimagesPath "/root" "2026_01_02__15_04" DefaultArbitratorSpawnerConfig
         mock_entry_delayed
  = Some (preimages_bin_spec (mock_order (Preimages mock_entry_delayed))).
Proof.
  split; [reflexivity|]. split; [vm_compute; reflexivity|].
  apply (proj2 (C9_preimages_bin_layout "/root" (fun _ => "/machines/latest")
                  "2026_01_02__15_04" (inl "/usr/bin/nitro") (fun _ => "/usr/bin")
                  (fun _ => "0x00") mock_order DefaultArbitratorSpawnerConfig
                  mock_entry_delayed mock_final 1%N empty_os
                  (reflexivity _))).
  apply pair_eta_fst. vm_compute. reflexivity.
Defined.

Lemma C10_error_yields_zero_state_witness :
  ArbitratorSpawner_execute (M := Mock) 5 context_Background mock_entry 0%N
  = Some ((GoGlobalState_zero,
           Some (fmt_Errorf "unabled to get WASM machine"
                   (errors_New "no machine for this module root"))), []) /\
  exists run',
    valRun_consumeResult GoGlobalState_zero
      (Some (fmt_Errorf "unabled to get WASM machine"
               (errors_New "no machine for this module root")))
      (NewvalRun 0%N) = Normal run' /\
    valRun_Result run'
    = (GoGlobalState_zero,
       Some (fmt_Errorf "unabled to get WASM machine"
               (errors_New "no machine for this module root"))).
Proof.
  assert (Hx : ArbitratorSpawner_execute (M := Mock) 5 context_Background mock_entry 0%N
               = Some ((GoGlobalState_zero,
                        Some (fmt_Errorf "unabled to get WASM machine"
                                (errors_New "no machine for this module root"))), []))
    by reflexivity.
  split; [exact Hx|].
  destruct (C10_error_yields_zero_state (M := Mock) 5 context_Background mock_entry 0%N
              _ _ _ Hx) as (_ & run' & Hc & _ & Hres).
  exists run'. split; [exact Hc | exact Hres].
Defined.

(** The scenario of the specification: input 42 on a machine that is not
    running and stands at batch 5, position 13; the future resolves to
    that checkpoint with a nil error. *)
Lemma scenario_halted_machine :
  exists r',
    step (M := Mock) (JM := unit) (mock_launched 1%N)
      (resolve O (mock_goroutine 1%N) r' (mock_launched 1%N)) /\
    valRun_Ready r' = true /\
    valRun_Result r' = (mock_final, None).
Proof.
  eexists. split.
  - eapply (step_resolve _ O (mock_goroutine 1%N) (NewvalRun 1%N) mock_final None);
      try reflexivity.
    eapply (execute_of_arb _ _ O); reflexivity.
  - split; reflexivity.
Qed.

(** The resolver of an input returns the stored bytes for a hash of the
    mapping and the not-found error for any other hash. *)
Lemma preimageResolver_spec (entry : ValidationInput) (hash : Hash) :
  match Preimages entry !! hash with
  | Some preimage => preimageResolver entry hash = inl preimage
  | None => preimageResolver entry hash = inr (errors_New "preimage not found")
  end.
Proof. unfold preimageResolver. by destruct (Preimages entry !! hash). Qed.

(** * Further properties *)

(** ** The exporter and the failures of the operating system *)





(** ** What the exporter does to one file *)

Lemma acts_ext {A : Type} q (c : IO A) g g' :
  acts q c g -> (forall x, g x = g' x) -> acts q c g'.
Proof. intros Hc Hg o a o' Hco. rewrite <- Hg. by eapply Hc. Qed.

Lemma acts_ret {A : Type} q (a : A) : acts q (io_ret a) (fun x => x).
Proof. intros o a' o' Hc. by inversion Hc. Qed.

Lemma acts_bind {A B : Type} q (c : IO A) (k : A -> IO B) g1 g2 :
  acts q c g1 -> (forall a, returns c a -> acts q (k a) g2) ->
  acts q (io_bind c k) (fun x => g2 (g1 x)).
Proof.
  intros Hc Hk o b o' Hb. apply io_bind_inl in Hb.
  destruct Hb as (a & o1 & Hco & Hka).
  rewrite (Hk a (ex_intro _ o (ex_intro _ o1 Hco)) _ _ _ Hka). f_equal. by eapply Hc.
Qed.

Lemma acts_syscall q effect g :
  (forall f, effect f !! q = g (f !! q)) -> acts q (syscall effect) g.
Proof.
  intros He o a o'. unfold syscall.
  destruct (os_faults o) as [|[e|] rest]; intros Hr; inversion Hr; subst; simpl; apply He.
Qed.

Lemma acts_for {A : Type} q (l : list A) (body : A -> IO unit)
  (g : A -> option bytes -> option bytes) :
  (forall a, acts q (body a) (g a)) ->
  acts q (io_for l body) (fun x => foldl (fun x a => g a x) x l).
Proof.
  intros Hb. induction l as [|a l IH]; simpl.
  - apply acts_ret.
  - eapply acts_ext; [eapply acts_bind; [apply Hb | intros _ _; exact IH]|]. done.
Qed.

Lemma acts_MkdirAll q path : acts q (os_MkdirAll path) (fun x => x).
Proof. by apply acts_syscall. Qed.

Lemma acts_WriteFile q path data : acts q (os_WriteFile path data) (file_set q path data).
Proof.
  apply acts_syscall. intros f. unfold file_set. case_decide as Hq.
  - subst. apply lookup_insert_eq.
  - by apply lookup_insert_ne.
Qed.

Lemma acts_File_Write q file data : acts q (File_Write file data) (file_append q file data).
Proof.
  apply acts_syscall. intros f. unfold file_append. case_decide as Hq.
  - subst. apply lookup_alter_eq.
  - by apply lookup_alter_ne.
Qed.

Lemma acts_File_WriteString q file s :
  acts q (File_WriteString file s) (file_append q file (bytes_of_string s)).
Proof. apply acts_File_Write. Qed.

(** Opening a file for writing truncates it and yields its handle. *)
Lemma acts_bind_OpenFile {B : Type} q path (k : string -> IO B) g :
  acts q (k path) g ->
  acts q (io_bind (os_OpenFile path) k) (fun x => g (file_set q path [] x)).
Proof.
  intros Hk. eapply acts_bind.
  - unfold os_OpenFile. eapply acts_ext.
    + eapply acts_bind; [apply (acts_WriteFile q path []) | intros _ _; apply acts_ret].
    + done.
  - intros a (o & o' & Ha). apply os_Create_content in Ha. by destruct Ha as [-> _].
Qed.

Lemma string_length_app (a b : string) :
  String.length (a +:+ b) = (String.length a + String.length b)%nat.
Proof. induction a as [|c a IH]; simpl; [done|]. by rewrite IH. Qed.

Lemma append_inj_r (a b t : string) : a +:+ t = b +:+ t -> a = b.
Proof.
  revert b. induction a as [|c a IH]; intros [|d b] Heq; simpl in Heq.
  - done.
  - apply (f_equal String.length) in Heq.
    rewrite !string_length_app in Heq. simpl in Heq. lia.
  - apply (f_equal String.length) in Heq.
    rewrite !string_length_app in Heq. simpl in Heq. lia.
  - inversion Heq; subst. f_equal. by apply IH.
Qed.

Lemma filepath_Join_base_ne (dir a b : string) :
  a <> b -> filepath_Join [dir; a] <> filepath_Join [dir; b].
Proof. intros Hne Heq. by apply filepath_Join_base_inj in Heq. Qed.

Lemma sequencer_name_inj (n m : Z) :
  "sequencer_" +:+ fmt_d n +:+ ".bin" = "sequencer_" +:+ fmt_d m +:+ ".bin" -> n = m.
Proof.
  intros Heq. apply append_inj_l in Heq. apply append_inj_r in Heq.
  by apply (inj pretty) in Heq.
Qed.

Lemma bytes_of_string_app (a b : string) :
  bytes_of_string (a +:+ b) = bytes_of_string a ++ bytes_of_string b.
Proof. induction a as [|c a IH]; simpl; [done|]. by rewrite IH. Qed.

Lemma file_set_eq q d x : file_set q q d x = Some d.
Proof. unfold file_set. by rewrite decide_True. Qed.

Lemma file_set_ne q path d x : path <> q -> file_set q path d x = x.
Proof. intros Hne. unfold file_set. by rewrite decide_False. Qed.

Lemma file_append_eq q d x : file_append q q d x = (fun old => old ++ d) <$> x.
Proof. unfold file_append. by rewrite decide_True. Qed.

Lemma file_append_ne q file d x : file <> q -> file_append q file d x = x.
Proof. intros Hne. unfold file_append. by rewrite decide_False. Qed.

Lemma foldl_fixed {A X : Type} (f : X -> A -> X) (l : list A) (x : X) :
  (forall y a, f y a = y) -> foldl f x l = x.
Proof. intros Hf. induction l as [|a l IH]; simpl; [done|]. by rewrite Hf. Qed.

Lemma foldl_appended {A : Type} (d : A -> bytes) (l : list A) (acc : bytes) :
  foldl (fun x a => (fun old => old ++ d a) <$> x) (Some acc) l
  = Some (acc ++ concat (map d l)).
Proof.
  revert acc. induction l as [|a l IH]; intros acc; simpl.
  - by rewrite app_nil_r.
  - rewrite IH. by rewrite <- app_assoc.
Qed.

Section ExporterFaults.
Variable rootPath : string.
Variable getMachinePath : Hash -> string.
Variable launchTime : string.
Variable os_Executable : string + error.
Variable filepath_Dir : string -> string.
Variable Hash_String : Hash -> string.
Variable range_order : gmap N bytes -> list (N * bytes).




End ExporterFaults.

(** ** The files of a bundle *)

Ltac acts_go :=
  lazymatch goal with
  | |- acts _ (io_ret _) _ => apply acts_ret
  | |- acts _ (os_MkdirAll _) _ => apply acts_MkdirAll
  | |- acts _ (os_WriteFile _ _) _ => apply acts_WriteFile
  | |- acts _ (File_WriteString _ _) _ => apply acts_File_WriteString
  | |- acts _ (File_Write _ _) _ => apply acts_File_Write
  | |- acts _ (io_bind (os_OpenFile _) _) _ => eapply acts_bind_OpenFile; acts_go
  | |- acts _ (io_bind (os_Create _) _) _ => eapply acts_bind_OpenFile; acts_go
  | |- acts _ (io_bind _ _) _ => eapply acts_bind; [acts_go | intros ? _; acts_go]
  | |- acts _ (io_for _ _) _ =>
    eapply acts_for; intros ?;
    (eapply acts_ext; [acts_go | intros ?; reflexivity])
  end.

Ltac names_ne :=
  apply filepath_Join_base_ne; intros Heq; simpl in Heq; discriminate.

Lemma foldl_ext_fun {A X : Type} (f f' : X -> A -> X) (l : list A) (x : X) :
  (forall y a, f y a = f' y a) -> foldl f x l = foldl f' x l.
Proof. intros Hf. revert x. induction l as [|a l IH]; intros x; simpl; [done|]. by rewrite Hf, IH. Qed.

Section ExporterFiles.
Variable rootPath : string.
Variable getMachinePath : Hash -> string.
Variable launchTime : string.
Variable os_Executable : string + error.
Variable filepath_Dir : string -> string.
Variable Hash_String : Hash -> string.
Variable range_order : gmap N bytes -> list (N * bytes).

Lemma WriteToFile_script config input expOut moduleRoot :
  acts (scriptPath rootPath launchTime config input)
    (ArbitratorSpawner_WriteToFile rootPath getMachinePath launchTime
       os_Executable filepath_Dir Hash_String range_order
       config input expOut moduleRoot)
    (fun _ => Some (script_bytes
                      (script_pieces getMachinePath os_Executable filepath_Dir
                         Hash_String input expOut moduleRoot))).
Proof.
  unfold ArbitratorSpawner_WriteToFile, scriptPath, outDir, script_pieces, script_delayed,
    script_position, script_header. cbv zeta.
  set (dir := filepath_Join [rootPath; OutputPath config; launchTime; "block_" +:+ fmt_d (Id input)]).
  set (cmd := filepath_Join [dir; "run-prover.sh"]).
  set (hdr := ("#!/bin/bash" +:+ _)%string).
  assert (Hlibs : forall acc (l : list string),
            foldl (fun (x0 : option bytes) (a : string) =>
                     file_append cmd cmd (bytes_of_string (" -l " +:+ "${MACHPATH}/" +:+ a)) x0)
                  (Some acc) l
            = Some (acc ++ concat (map (fun a => bytes_of_string (" -l " +:+ "${MACHPATH}/" +:+ a)) l))).
  { intros acc l. rewrite <- foldl_appended. apply foldl_ext_fun.
    intros y a. apply file_append_eq. }
  assert (Hbatches : forall acc (l : list BatchInfo),
            foldl (fun (x0 : option bytes) (a : BatchInfo) =>
                     file_append cmd cmd
                       (bytes_of_string (" --inbox " +:+ "sequencer_" +:+ fmt_d (Number a) +:+ ".bin"))
                       (file_set cmd
                          (filepath_Join [dir; "sequencer_" +:+ fmt_d (Number a) +:+ ".bin"])
                          (Data a) x0))
                  (Some acc) l
            = Some (acc ++ concat (map (fun a => bytes_of_string
                       (" --inbox " +:+ "sequencer_" +:+ fmt_d (Number a) +:+ ".bin")) l))).
  { intros acc l. rewrite <- foldl_appended. apply foldl_ext_fun.
    intros y a. rewrite file_set_ne by names_ne. apply file_append_eq. }
  assert (Hpre : forall (y : option bytes) (l : list (N * bytes)),
            foldl (fun (x0 : option bytes) (a : N * bytes) =>
                     file_append cmd (filepath_Join [dir; "preimages.bin"]) a.2
                       (file_append cmd (filepath_Join [dir; "preimages.bin"])
                          (binary_LittleEndian_PutUint64 (wrap_uint64 (len a.2))) x0))
                  y l = y).
  { intros y l. apply foldl_fixed. intros z a.
    rewrite !file_append_ne by names_ne. done. }
  destruct (HasDelayedMsg input).
  - eapply acts_ext; [acts_go|]. intros x. cbv beta.
    rewrite file_set_eq, !file_append_eq. cbn [fmap option_fmap option_map].
    rewrite Hlibs. cbn [fmap option_fmap option_map].
    rewrite Hbatches, (file_set_ne cmd (filepath_Join [dir; "preimages.bin"])) by names_ne.
    rewrite Hpre. cbn [fmap option_fmap option_map].
    rewrite (file_set_ne cmd (filepath_Join [dir; _ +:+ _])) by names_ne.
    cbn [fmap option_fmap option_map].
    f_equal. unfold script_bytes.
    rewrite !map_app, !concat_app, !map_map. cbn [map concat].
    rewrite !app_nil_r, <- !app_assoc. reflexivity.
  - eapply acts_ext; [acts_go|]. intros x. cbv beta.
    rewrite file_set_eq, !file_append_eq. cbn [fmap option_fmap option_map].
    rewrite Hlibs. cbn [fmap option_fmap option_map].
    rewrite Hbatches, (file_set_ne cmd (filepath_Join [dir; "preimages.bin"])) by names_ne.
    rewrite Hpre. cbn [fmap option_fmap option_map].
    f_equal. unfold script_bytes.
    rewrite !map_app, !concat_app, !map_map. cbn [map concat].
    rewrite !app_nil_r, <- !app_assoc. reflexivity.
Qed.

Lemma WriteToFile_preimages config input expOut moduleRoot :
  acts (preimagesPath rootPath launchTime config input)
    (ArbitratorSpawner_WriteToFile rootPath getMachinePath launchTime
       os_Executable filepath_Dir Hash_String range_order
       config input expOut moduleRoot)
    (fun _ => Some (concat (map (fun kv => record_written (snd kv))
                              (range_order (Preimages input))))).
Proof.
  unfold ArbitratorSpawner_WriteToFile, preimagesPath, outDir. cbv zeta.
  set (dir := filepath_Join [rootPath; OutputPath config; launchTime; "block_" +:+ fmt_d (Id input)]).
  set (cmd := filepath_Join [dir; "run-prover.sh"]).
  set (p := filepath_Join [dir; "preimages.bin"]).
  set (hdr := ("#!/bin/bash" +:+ _)%string).
  assert (Hcmd : cmd <> p) by names_ne.
  assert (Hlibs : forall (y : option bytes) (l : list string),
            foldl (fun (x0 : option bytes) (a : string) =>
                     file_append p cmd (bytes_of_string (" -l " +:+ "${MACHPATH}/" +:+ a)) x0)
                  y l = y).
  { intros y l. apply foldl_fixed. intros z a. by rewrite file_append_ne. }
  assert (Hbatches : forall (y : option bytes) (l : list BatchInfo),
            foldl (fun (x0 : option bytes) (a : BatchInfo) =>
                     file_append p cmd
                       (bytes_of_string (" --inbox " +:+ "sequencer_" +:+ fmt_d (Number a) +:+ ".bin"))
                       (file_set p
                          (filepath_Join [dir; "sequencer_" +:+ fmt_d (Number a) +:+ ".bin"])
                          (Data a) x0))
                  y l = y).
  { intros y l. apply foldl_fixed. intros z a.
    rewrite file_append_ne by done. by rewrite file_set_ne by names_ne. }
  assert (Hpre : forall acc (l : list (N * bytes)),
            foldl (fun (x0 : option bytes) (a : N * bytes) =>
                     file_append p p a.2
                       (file_append p p
                          (binary_LittleEndian_PutUint64 (wrap_uint64 (len a.2))) x0))
                  (Some acc) l
            = Some (acc ++ concat (map (fun kv => record_written (snd kv)) l))).
  { intros acc l. rewrite <- foldl_appended. apply foldl_ext_fun.
    intros y a. rewrite !file_append_eq. unfold record_written.
    destruct y; simpl; [|done]. by rewrite <- app_assoc. }
  destruct (HasDelayedMsg input).
  - eapply acts_ext; [acts_go|]. intros x. cbv beta.
    rewrite !(file_append_ne p cmd) by done.
    rewrite Hlibs, Hbatches, file_set_eq, Hpre.
    rewrite (file_set_ne p (filepath_Join [dir; _ +:+ _])) by names_ne.
    reflexivity.
  - eapply acts_ext; [acts_go|]. intros x. cbv beta.
    rewrite !(file_append_ne p cmd) by done.
    rewrite Hlibs, Hbatches, file_set_eq, Hpre.
    reflexivity.
Qed.

Lemma foldl_last_payload q cmd (path : Z -> string) (d : BatchInfo -> bytes) (n : Z)
  (l : list BatchInfo) (x : option bytes) :
  cmd <> q -> (forall m, path m = q <-> m = n) ->
  foldl (fun (x0 : option bytes) (a : BatchInfo) =>
           file_append q cmd (d a) (file_set q (path (Number a)) (Data a) x0)) x l
  = match last_payload n l with
    | Some data => Some data
    | None => x
    end.
Proof.
  intros Hcmd Hpath. revert x. unfold last_payload.
  induction l as [|a l IH]; intros x; [done|]. simpl foldl.
  rewrite IH, file_append_ne by done. rewrite filter_cons.
  unfold file_set. destruct (decide (Number a = n)) as [Hn|Hn].
  - rewrite decide_True by (by apply Hpath). simpl.
    destruct (map Data (filter (fun b => Number b = n) l)) as [|e t] eqn:Hm; [done|].
    assert (Hsome : forall (t : list bytes) e, is_Some (last (e :: t))).
    { clear. induction t as [|e' t IHt]; intros e; simpl; eauto. }
    destruct (Hsome t e) as [y Hy].
    change (last (Data a :: e :: t)) with (last (e :: t)). by rewrite Hy.
  - rewrite decide_False by (by rewrite Hpath). done.
Qed.

Lemma WriteToFile_sequencer config input expOut moduleRoot n :
  acts (sequencerPath rootPath launchTime config input n)
    (ArbitratorSpawner_WriteToFile rootPath getMachinePath launchTime
       os_Executable filepath_Dir Hash_String range_order
       config input expOut moduleRoot)
    (fun x => match last_payload n (BatchInfos input) with
              | Some data => Some data
              | None => x
              end).
Proof.
  unfold ArbitratorSpawner_WriteToFile, sequencerPath, outDir. cbv zeta.
  set (dir := filepath_Join [rootPath; OutputPath config; launchTime; "block_" +:+ fmt_d (Id input)]).
  set (cmd := filepath_Join [dir; "run-prover.sh"]).
  set (p := filepath_Join [dir; "preimages.bin"]).
  set (q := filepath_Join [dir; "sequencer_" +:+ fmt_d n +:+ ".bin"]).
  set (hdr := ("#!/bin/bash" +:+ _)%string).
  assert (Hcmd : cmd <> q) by names_ne.
  assert (Hp : p <> q) by names_ne.
  assert (Hlibs : forall (y : option bytes) (l : list string),
            foldl (fun (x0 : option bytes) (a : string) =>
                     file_append q cmd (bytes_of_string (" -l " +:+ "${MACHPATH}/" +:+ a)) x0)
                  y l = y).
  { intros y l. apply foldl_fixed. intros z a. by rewrite file_append_ne. }
  assert (Hbatches : forall (y : option bytes) (l : list BatchInfo),
            foldl (fun (x0 : option bytes) (a : BatchInfo) =>
                     file_append q cmd
                       (bytes_of_string (" --inbox " +:+ "sequencer_" +:+ fmt_d (Number a) +:+ ".bin"))
                       (file_set q
                          (filepath_Join [dir; "sequencer_" +:+ fmt_d (Number a) +:+ ".bin"])
                          (Data a) x0))
                  y l
            = match last_payload n l with Some data => Some data | None => y end).
  { intros y l.
    apply (foldl_last_payload q cmd
             (fun m => filepath_Join [dir; "sequencer_" +:+ fmt_d m +:+ ".bin"])
             (fun a => bytes_of_string
                (" --inbox " +:+ "sequencer_" +:+ fmt_d (Number a) +:+ ".bin")) n l y Hcmd).
    intros m. split.
    - intros Heq. apply filepath_Join_base_inj in Heq. by apply sequencer_name_inj.
    - by intros ->. }
  assert (Hpre : forall (y : option bytes) (l : list (N * bytes)),
            foldl (fun (x0 : option bytes) (a : N * bytes) =>
                     file_append q p a.2
                       (file_append q p
                          (binary_LittleEndian_PutUint64 (wrap_uint64 (len a.2))) x0))
                  y l = y).
  { intros y l. apply foldl_fixed. intros z a. by rewrite !file_append_ne. }
  destruct (HasDelayedMsg input).
  - eapply acts_ext; [acts_go|]. intros x. cbv beta.
    rewrite !(file_append_ne q cmd) by done.
    rewrite (file_set_ne q cmd) by done.
    rewrite Hlibs, Hbatches, (file_set_ne q p), Hpre by done.
    rewrite (file_set_ne q (filepath_Join [dir; "delayed_" +:+ _])) by names_ne.
    reflexivity.
  - eapply acts_ext; [acts_go|]. intros x. cbv beta.
    rewrite !(file_append_ne q cmd) by done.
    rewrite (file_set_ne q cmd) by done.
    rewrite Hlibs, Hbatches, (file_set_ne q p), Hpre by done.
    reflexivity.
Qed.



Lemma filter_none {A : Type} (P : A -> Prop) `{forall x, Decision (P x)} (l : list A) :
  Forall (fun x => ~ P x) l -> filter P l = [].
Proof.
  induction 1 as [|x l Hx _ IH]; [done|]. by rewrite filter_cons, decide_False.
Qed.

Lemma last_payload_last (l : list BatchInfo) (k : nat) (b : BatchInfo) :
  l !! k = Some b ->
  (forall j b', (k < j)%nat -> l !! j = Some b' -> Number b' <> Number b) ->
  last_payload (Number b) l = Some (Data b).
Proof.
  intros Hk Hlater. unfold last_payload.
  rewrite <- (take_drop_middle l k b Hk).
  rewrite filter_app, filter_cons, decide_True by done.
  assert (Hnone : filter (fun b0 => Number b0 = Number b) (drop (S k) l) = []).
  { apply filter_none. apply Forall_forall. intros b' Hb'.
    apply list_elem_of_lookup in Hb'. destruct Hb' as [j Hj].
    rewrite lookup_drop in Hj. eapply Hlater; [|exact Hj]. lia. }
  rewrite Hnone, map_app. simpl. apply last_snoc.
Qed.

(** X2.  After an export that returns nil, the file [sequencer_<n>.bin] of
    the bundle holds the payload of the last batch message of the input
    that carries the number [n]: of two messages with one number the later
    one overwrites the earlier.  A path [sequencer_<n>.bin] whose number no
    batch message carries is left as it was.  In particular a batch
    message whose number no later message repeats is found in its file,
    byte for byte. *)
Theorem X2_sequencer_files config (input : ValidationInput) expOut moduleRoot o o' :
  ArbitratorSpawner_WriteToFile rootPath getMachinePath launchTime
    os_Executable filepath_Dir Hash_String range_order
    config input expOut moduleRoot o = (inl tt, o') ->
  (forall n,
     os_files o' !! sequencerPath rootPath launchTime config input n
     = match last_payload n (BatchInfos input) with
       | Some data => Some data
       | None => os_files o !! sequencerPath rootPath launchTime config input n
       end) /\
  (forall k b,
     BatchInfos input !! k = Some b ->
     (forall j b', (k < j)%nat -> BatchInfos input !! j = Some b' ->
                   Number b' <> Number b) ->
     os_files o' !! sequencerPath rootPath launchTime config input (Number b)
     = Some (Data b)).
Proof.
  intros Hw.
  assert (Hall : forall n,
     os_files o' !! sequencerPath rootPath launchTime config input n
     = match last_payload n (BatchInfos input) with
       | Some data => Some data
       | None => os_files o !! sequencerPath rootPath launchTime config input n
       end).
  { intros n. exact (WriteToFile_sequencer config input expOut moduleRoot n _ _ _ Hw). }
  split; [exact Hall|].
  intros k b Hk Hlater. rewrite Hall. by rewrite (last_payload_last _ k b Hk Hlater).
Qed.


(** X4.  After an export that returns nil, [run-prover.sh] holds, whatever
    the path held before (the file is truncated when it is opened), exactly:
    the header, one [-l] option per library, the start position, one
    [--inbox] option per batch message in the order of the input, the
    [--preimages] option, the two delayed-inbox options when the input has
    a delayed message, and the closing line with the caller's arguments.
    The writes to the other files of the bundle, which happen in between, do
    not reach the script. *)
Theorem X4_script_layout config (input : ValidationInput) expOut moduleRoot o o' :
  ArbitratorSpawner_WriteToFile rootPath getMachinePath launchTime
    os_Executable filepath_Dir Hash_String range_order
    config input expOut moduleRoot o = (inl tt, o') ->
  os_files o' !! scriptPath rootPath launchTime config input
  = Some (script_bytes
            (script_pieces getMachinePath os_Executable filepath_Dir Hash_String
               input expOut moduleRoot)).
Proof.
  intros Hw. exact (WriteToFile_script config input expOut moduleRoot _ _ _ Hw).
Qed.

Lemma length_le64_spec n : length (le64_spec n) = 8%nat.
Proof. reflexivity. Qed.

Lemma length_preimages_bin_spec (entries : list (N * bytes)) :
  (8 * length entries <= length (preimages_bin_spec entries))%nat.
Proof.
  unfold preimages_bin_spec. induction entries as [|kv entries IH]; [simpl; lia|].
  cbn [map concat]. unfold record_spec at 1.
  rewrite !length_app, length_le64_spec. cbn [length]. lia.
Qed.

Lemma decode_records_S (fuel : nat) (b : bytes) :
  b <> [] ->
  decode_records (S fuel) b
  = if (length b <? 8)%nat then None
    else if (length (drop 8 b) <? Z.to_nat (le_decode (take 8 b)))%nat then None
         else match decode_records fuel
                      (drop (Z.to_nat (le_decode (take 8 b))) (drop 8 b)) with
              | Some records =>
                Some (take (Z.to_nat (le_decode (take 8 b))) (drop 8 b) :: records)
              | None => None
              end.
Proof. destruct b; [done | reflexivity]. Qed.

Lemma decode_records_spec (entries : list (N * bytes)) (fuel : nat) :
  (length entries <= fuel)%nat ->
  (forall kv, kv ∈ entries -> len (snd kv) < 2^64) ->
  decode_records fuel (preimages_bin_spec entries) = Some (map snd entries).
Proof.
  revert fuel. induction entries as [|kv entries IH]; intros fuel Hfuel Hlen.
  - by destruct fuel.
  - destruct fuel as [|fuel]; [simpl in Hfuel; lia|].
    assert (Hkv : 0 <= len (snd kv) < 2^64).
    { split; [unfold len; lia | apply Hlen; by left]. }
    change (preimages_bin_spec (kv :: entries))
      with (record_spec (snd kv) ++ preimages_bin_spec entries).
    unfold record_spec. rewrite <- app_assoc.
    set (rest := snd kv ++ preimages_bin_spec entries).
    rewrite decode_records_S by (intros Heq; apply (f_equal length) in Heq;
                                 rewrite length_app, length_le64_spec in Heq;
                                 simpl in Heq; lia).
    assert (Hlt : (length (le64_spec (len kv.2) ++ rest) <? 8)%nat = false).
    { apply Nat.ltb_ge. rewrite length_app, length_le64_spec. lia. }
    rewrite Hlt.
    assert (Htake : take 8 (le64_spec (len kv.2) ++ rest) = le64_spec (len kv.2)).
    { rewrite <- (length_le64_spec (len kv.2)). apply take_app_length. }
    assert (Hdrop : drop 8 (le64_spec (len kv.2) ++ rest) = rest).
    { rewrite <- (length_le64_spec (len kv.2)). apply drop_app_length. }
    rewrite Htake, Hdrop, le_decode_le64_spec by exact Hkv.
    unfold len. rewrite Nat2Z.id. subst rest.
    assert (Hlt2 : (length (kv.2 ++ preimages_bin_spec entries) <? length kv.2)%nat = false).
    { apply Nat.ltb_ge. rewrite length_app. lia. }
    rewrite Hlt2, take_app_length, drop_app_length.
    rewrite IH; [done | simpl in Hfuel; lia |].
    intros kv' Hkv'. apply Hlen. by right.
Qed.

(** X5.  Round trip of [preimages.bin].  When every preimage is shorter
    than 2^64 bytes, reading the file of an export that returned nil back
    record by record (eight bytes of little-endian length, then that many
    bytes) succeeds and gives the data of the preimages, in the order in
    which the export ranged over them, and nothing else.  The keys of the
    preimages are not in the file. *)
Theorem X5_preimages_bin_round_trip config (input : ValidationInput) expOut
  moduleRoot o o' :
  (forall kv, kv ∈ range_order (Preimages input) -> len (snd kv) < 2^64) ->
  ArbitratorSpawner_WriteToFile rootPath getMachinePath launchTime
    os_Executable filepath_Dir Hash_String range_order
    config input expOut moduleRoot o = (inl tt, o') ->
  exists content,
    os_files o' !! preimagesPath rootPath launchTime config input = Some content /\
    decode_preimages content = Some (map snd (range_order (Preimages input))).
Proof.
  intros Hlen Hw.
  pose proof (WriteToFile_preimages config input expOut moduleRoot _ _ _ Hw) as Hc.
  simpl in Hc. eexists. split; [exact Hc|].
  assert (Heq : concat (map (fun kv : N * bytes => record_written kv.2)
                          (range_order (Preimages input)))
                = preimages_bin_spec (range_order (Preimages input))).
  { unfold preimages_bin_spec. f_equal. apply map_ext. intros kv.
    apply record_written_spec. }
  rewrite Heq. unfold decode_preimages. apply decode_records_spec; [|exact Hlen].
  pose proof (length_preimages_bin_spec (range_order (Preimages input))). lia.
Qed.

(** X6.  With an input that has no preimages, an export that returns nil
    has still created [preimages.bin], and the file is empty, whatever the
    path held before. *)
Theorem X6_no_preimages_empty_file config (input : ValidationInput) expOut
  moduleRoot o o' :
  range_order (Preimages input) ≡ₚ map_to_list (Preimages input) ->
  Preimages input = ∅ ->
  ArbitratorSpawner_WriteToFile rootPath getMachinePath launchTime
    os_Executable filepath_Dir Hash_String range_order
    config input expOut moduleRoot o = (inl tt, o') ->
  os_files o' !! preimagesPath rootPath launchTime config input = Some [].
Proof.
  intros Hperm Hempty Hw.
  pose proof (WriteToFile_preimages config input expOut moduleRoot _ _ _ Hw) as Hc.
  cbv beta in Hc. rewrite Hempty, map_to_list_empty in Hperm.
  apply Permutation_nil_r in Hperm. rewrite Hempty in Hc. rewrite Hperm in Hc.
  exact Hc.
Qed.
End ExporterFiles.

(** ** More on the replay *)

Section ReplayMore.
Context {M B : Type} `{ArbitratorMachine M} `{ArbMachineLoader M}
        `{ChallengeBackend M B}.

Lemma stepLoop_stopped fuel ctx steps (s : mstate) :
  IsRunning (fst s) = false -> stepLoop fuel ctx steps s = Some (LoopStopped, s).
Proof. intros Hr. destruct fuel; simpl; by rewrite Hr. Qed.

(** X13.  When feeding the input to the clone fails, [execute] returns the
    zero checkpoint with the error of the feed, unchanged, whatever the
    number of iterations it is allowed: the stepping loop is not entered
    ([Step] is never called), one clone was made and it is destroyed
    once, as the last event of the call. *)
Theorem X13_failed_feed_is_never_stepped ctx (entry : ValidationInput) moduleRoot
  (base : M) e s :
  GetHostIoMachine ctx moduleRoot = inl base ->
  ArbitratorSpawner_loadEntryToMachine ctx entry (Clone base, [EvCall CClone None])
    = (Some e, s) ->
  forall fuel,
    ArbitratorSpawner_execute fuel ctx entry moduleRoot
    = Some ((GoGlobalState_zero, Some e), snd s ++ [EvCall CDestroy None]) /\
    step_results (snd s ++ [EvCall CDestroy None]) = [] /\
    count_call CClone (snd s ++ [EvCall CDestroy None]) = 1%nat /\
    count_call CDestroy (snd s ++ [EvCall CDestroy None]) = 1%nat.
Proof.
  intros Hload Hfeed fuel. unfold ArbitratorSpawner_execute, execute_body.
  rewrite Hload, Hfeed, call_eq. simpl. split; [reflexivity|].
  apply loadEntryToMachine_quiet in Hfeed. destruct Hfeed as (tr & -> & Hc & Hs).
  cbn [snd]. rewrite !step_results_app, !count_call_app, !Hc, Hs. done.
Qed.

(** X14.  A machine that is not running after the feed is never stepped:
    whatever the number of iterations allowed, [execute] returns at once
    the machine's checkpoint with no error, or, when the machine is in the
    errored state, the zero checkpoint with the machine fault after logging
    it; the events of the call are those of the feed followed by the
    destruction of the clone. *)
Theorem X14_halted_machine_is_not_stepped ctx (entry : ValidationInput) moduleRoot
  (base : M) s :
  GetHostIoMachine ctx moduleRoot = inl base ->
  ArbitratorSpawner_loadEntryToMachine ctx entry (Clone base, [EvCall CClone None])
    = (None, s) ->
  IsRunning (fst s) = false ->
  forall fuel,
    ArbitratorSpawner_execute fuel ctx entry moduleRoot
    = Some (if IsErrored (fst s)
            then ((GoGlobalState_zero, Some machine_fault),
                  snd s ++ [EvLogError "machine entered errored state during attempted validation";
                            EvCall CDestroy None])
            else ((GetGlobalState (fst s), None), snd s ++ [EvCall CDestroy None])).
Proof.
  intros Hload Hfeed Hrun fuel. unfold ArbitratorSpawner_execute, execute_body.
  rewrite Hload, Hfeed, (stepLoop_stopped _ _ _ _ Hrun).
  destruct (IsErrored (fst s)); rewrite call_eq; simpl.
  - by rewrite <- app_assoc.
  - done.
Qed.

Lemma loop_trace_S j0 n :
  loop_trace j0 (S n)
  = EvCall (CStep stepCount) None ::
    match j0 with
    | O => []
    | S _ => [EvLogDebug (Z.of_nat j0 * stepCount)]
    end ++ loop_trace (S j0) n.
Proof. unfold loop_trace. simpl. by destruct j0. Qed.

(** X15.  The stepping loop on a machine that halts after [n] calls of
    [Step], none of which fails: the loop makes exactly these [n] calls,
    each for [stepCount] steps, writes after every call but the first of the
    execution the debug line with the number of steps taken before that
    call, and stops with the machine halted.  The step counter is a
    [uint64]; the statement holds as long as it does not wrap, and with
    at least [n] iterations allowed. *)
Theorem X15_loop_steps_and_debug_lines ctx (n : nat) :
  forall (j0 fuel : nat) (m m' : M) (tr : list Event),
  stepN n ctx m = Some m' ->
  IsRunning m' = false ->
  Z.of_nat (j0 + n) * stepCount < 2^64 ->
  (n <= fuel)%nat ->
  stepLoop fuel ctx (Z.of_nat j0 * stepCount) (m, tr)
  = Some (LoopStopped, (m', tr ++ loop_trace j0 n)).
Proof.
  induction n as [|n IH]; intros j0 fuel m m' tr HN Hstop Hbound Hfuel.
  - simpl in HN. inversion HN; subst m'.
    rewrite stepLoop_stopped by exact Hstop. unfold loop_trace. simpl.
    by rewrite app_nil_r.
  - destruct fuel as [|fuel]; [lia|].
    simpl in HN. destruct (IsRunning m) eqn:Hrun; [|discriminate].
    destruct (Step ctx stepCount m) as [[e|] m1] eqn:Hstep; [discriminate|].
    simpl stepLoop. simpl fst. rewrite Hrun, call_eq. simpl. rewrite Hstep. simpl.
    assert (Hwrap : wrap_uint64 (Z.of_nat j0 * stepCount + stepCount)
                    = Z.of_nat (S j0) * stepCount).
    { unfold wrap_uint64. rewrite Z.mod_small; unfold stepCount in *; lia. }
    rewrite Hwrap, loop_trace_S.
    destruct j0 as [|j0].
    + change (0 <? Z.of_nat 0 * stepCount) with false. cbv iota.
      rewrite (IH 1%nat fuel m1 m' _ HN Hstop) by (try lia; unfold stepCount in *; lia).
      by rewrite <- app_assoc.
    + assert (Hpos : (0 <? Z.of_nat (S j0) * stepCount) = true)
        by (apply Z.ltb_lt; unfold stepCount; lia).
      rewrite Hpos. unfold logDebug. simpl.
      rewrite (IH (S (S j0)) fuel m1 m' _ HN Hstop) by (try lia; unfold stepCount in *; lia).
      by rewrite <- !app_assoc.
Qed.

(** X16.  What [CreateExecutionBackend] returns and does.  A failure of
    the loader is returned unchanged, and no machine call is made.  When
    the zero-step machine loads and the feed succeeds, the function returns
    what [NewExecutionChallengeBackend] returns for the frozen clone and
    the configured target machine count; it has made one clone, frozen it
    once, never destroyed it and never stepped it, and the constructor call
    is its last event. *)
Theorem X16_CreateExecutionBackend_results target ctx wasmModuleRoot
  (input : ValidationInput) :
  (forall e, GetZeroStepMachine ctx wasmModuleRoot = inr e ->
     ArbitratorSpawner_CreateExecutionBackend (M := M) (B := B) target ctx
       wasmModuleRoot input = ((None, Some e), [])) /\
  (forall base s,
     GetZeroStepMachine ctx wasmModuleRoot = inl base ->
     ArbitratorSpawner_loadEntryToMachine ctx input (Clone base, [EvCall CClone None])
       = (None, s) ->
     exists tr,
       ArbitratorSpawner_CreateExecutionBackend (B := B) target ctx wasmModuleRoot input
       = (match NewExecutionChallengeBackend (Freeze (fst s)) target with
          | inl b => (Some b, None)
          | inr e => (None, Some e)
          end, tr) /\
       count_call CClone tr = 1%nat /\ count_call CFreeze tr = 1%nat /\
       count_call CDestroy tr = O /\ step_results tr = [] /\
       exists e, last tr = Some (EvCall (CNewExecutionChallengeBackend target) e)).
Proof.
  split.
  - intros e Hload. unfold ArbitratorSpawner_CreateExecutionBackend. by rewrite Hload.
  - intros base s Hload Hfeed. unfold ArbitratorSpawner_CreateExecutionBackend.
    rewrite Hload, Hfeed, call_eq. cbv zeta. cbn [fst snd].
    apply loadEntryToMachine_quiet in Hfeed. destruct Hfeed as (ltr & Hs & Hc & Hst).
    cbn [fst snd] in Hs.
    assert (Hcounts : forall ev,
              count_call CClone ((snd s ++ [EvCall CFreeze None]) ++ [ev]) =
                (1 + count_call CClone [ev])%nat /\
              count_call CFreeze ((snd s ++ [EvCall CFreeze None]) ++ [ev]) =
                (1 + count_call CFreeze [ev])%nat /\
              count_call CDestroy ((snd s ++ [EvCall CFreeze None]) ++ [ev]) =
                count_call CDestroy [ev] /\
              step_results ((snd s ++ [EvCall CFreeze None]) ++ [ev]) = step_results [ev]).
    { intros ev. rewrite Hs, !count_call_app, !step_results_app, !Hc, Hst.
      repeat split; reflexivity. }
    destruct (NewExecutionChallengeBackend (Freeze (fst s)) target) as [b|e];
      eexists; (split; [reflexivity|]);
      (match goal with |- context [?l ++ [?ev]] =>
         destruct (Hcounts ev) as (Hk1 & Hk2 & Hk3 & Hk4) end);
      rewrite Hk1, Hk2, Hk3, Hk4;
      (repeat split; try reflexivity); eexists; apply last_snoc.
Qed.

End ReplayMore.

(** ** More on the future and the counters *)

(** X7.  Resolving a run a second time panics (close of a closed channel),
    but only after the stores: the run stays ready, its module root is
    kept, and [Result] now returns the checkpoint and the error of the
    second resolution. *)
Theorem X7_second_resolution_panics res e (r : valRun) :
  chanReady (marker r) = true ->
  exists r',
    valRun_consumeResult res e r = Panic "close of closed channel" r' /\
    valRun_Ready r' = true /\
    valRun_Result r' = (res, e) /\
    valRun_WasmModuleRoot r' = valRun_WasmModuleRoot r.
Proof.
  intros Hc. unfold valRun_consumeResult, readyMarker_signalReady. simpl.
  rewrite Hc. eexists. split; [reflexivity|]. done.
Qed.

(** X8.  [WaitReady] on a run that [consumeResult] has resolved returns the
    error the run was resolved with, the one [Result] gives.  It is the only
    answer while the caller's context is live; with a context that is done
    the select may also take the context branch and return the context's
    error.  In no case does the call change the marker. *)
Theorem X8_WaitReady_on_resolved_run res e (r r' : valRun) (ctx : context_Context) :
  valRun_consumeResult res e r = Normal r' ->
  readyMarker_WaitReady (marker r') ctx e (marker r') /\
  e = snd (valRun_Result r') /\
  (forall e' d, readyMarker_WaitReady (marker r') ctx e' d ->
     d = marker r' /\ (e' = e \/ (ctx_Done ctx = true /\ e' = ctx_Err ctx))) /\
  (ctx_Done ctx = false ->
   forall e' d, readyMarker_WaitReady (marker r') ctx e' d -> e' = e) /\
  (ctx_Done ctx = true ->
   readyMarker_WaitReady (marker r') ctx (ctx_Err ctx) (marker r')).
Proof.
  intros Hc. unfold valRun_consumeResult, readyMarker_signalReady in Hc. simpl in Hc.
  destruct (chanReady (marker r)) eqn:Hopen; [discriminate|].
  inversion Hc; subst r'; clear Hc. simpl.
  split; [|split; [|split; [|split]]].
  - apply (WaitReady_chanReady {| chanReady := true; boolReady := 1; err := e |}).
    reflexivity.
  - reflexivity.
  - intros e' d Hw. inversion Hw; subst; simpl; split; auto.
  - intros Hlive e' d Hw. inversion Hw; subst; simpl; [done|congruence].
  - intros Hdone. by apply WaitReady_ctxDone.
Qed.

Section SystemMore.
Context {M JM SW : Type} `{ArbitratorMachine M} `{ArbMachineLoader M}
        `{JitMachineLoader JM} `{StopWaiter SW}.
Variable runtime_NumCPU : Z.


Lemma pc_le_refl p : pc_le p p.
Proof. by destruct p. Qed.

Lemma pc_le_trans p q r : pc_le p q -> pc_le q r -> pc_le p r.
Proof. by destruct p, q, r. Qed.

Lemma same_task_refl g : same_task g g.
Proof. unfold same_task. repeat split. apply pc_le_refl. Qed.

Lemma same_task_trans g1 g2 g3 : same_task g1 g2 -> same_task g2 g3 -> same_task g1 g3.
Proof.
  intros (Hb & Hr & He & Ho & Hp) (Hb' & Hr' & He' & Ho' & Hp').
  unfold same_task. repeat split; try congruence. by eapply pc_le_trans.
Qed.

Lemma same_task_set_pc g q : pc_le (g_pc g) q -> same_task g (set_pc q g).
Proof. intros Hq. unfold same_task. simpl. done. Qed.

Lemma step_same_task (w w' : World SW) i g :
  pool w !! i = Some g -> step (M := M) (JM := JM) w w' ->
  exists g', pool w' !! i = Some g' /\ same_task g g'.
Proof.
  intros Hi Hstep.
  assert (Hkeep : pool w' = pool w -> exists g', pool w' !! i = Some g' /\ same_task g g').
  { intros ->. exists g. split; [exact Hi | apply same_task_refl]. }
  destruct Hstep as [b entry moduleRoot w | w j gj rj res e r' Hj Hpc Hrj Hex Hcons
                     | w j gj Hj Hpc | | | | | | ];
    try (by apply Hkeep).
  - exists g. split; [|apply same_task_refl].
    destruct b; simpl; by apply lookup_app_l_Some.
  - unfold resolve, set_heap_pool; simpl. destruct (decide (j = i)) as [->|Hne].
    + rewrite Hi in Hj. inversion Hj; subst gj. exists (set_pc Resolved g). split.
      * apply list_lookup_insert_eq. by eapply lookup_lt_Some.
      * apply same_task_set_pc. by rewrite Hpc.
    + exists g. rewrite list_lookup_insert_ne by done. split; [exact Hi | apply same_task_refl].
  - assert (Hp : pool (exit j gj w) = <[j := set_pc Exited gj]> (pool w))
      by (unfold exit, decrement; by destruct (g_backend gj)).
    rewrite Hp. destruct (decide (j = i)) as [->|Hne].
    + rewrite Hi in Hj. inversion Hj; subst gj. exists (set_pc Exited g). split.
      * apply list_lookup_insert_eq. by eapply lookup_lt_Some.
      * apply same_task_set_pc. by rewrite Hpc.
    + exists g. rewrite list_lookup_insert_ne by done. split; [exact Hi | apply same_task_refl].
Qed.

Lemma steps_same_task (w w' : World SW) i g :
  pool w !! i = Some g -> rtc (step (M := M) (JM := JM)) w w' ->
  exists g', pool w' !! i = Some g' /\ same_task g g'.
Proof.
  intros Hi Hs. revert g Hi. induction Hs as [w|w1 w2 w3 Hstep _ IH]; intros g Hi.
  - exists g. split; [exact Hi | apply same_task_refl].
  - destruct (step_same_task _ _ _ _ Hi Hstep) as (g2 & Hg2 & Hsame).
    destruct (IH g2 Hg2) as (g3 & Hg3 & Hsame'). exists g3. split; [exact Hg3|].
    by eapply same_task_trans.
Qed.

Lemma Inv_root_step (w w' : World SW) :
  Inv w -> Inv_root w -> step (M := M) (JM := JM) w w' -> Inv_root w'.
Proof.
  intros (Hlen & Hruns & _) Hroot Hstep.
  assert (Hkeep : heap w' = heap w -> pool w' = pool w -> Inv_root w').
  { intros Hh Hp i g r. rewrite Hh, Hp. apply Hroot. }
  destruct Hstep as [b entry moduleRoot w | w j gj rj res e r' Hj Hpc Hrj Hex Hcons
                     | w j gj Hj Hpc | | | | | | ];
    try (by apply Hkeep).
  - assert (Hnew : forall g, g_root g = moduleRoot ->
              forall w' : World SW, heap w' = heap w ++ [NewvalRun moduleRoot] ->
                pool w' = pool w ++ [g] -> Inv_root w').
    { intros g Hg w' Hh Hp i g' r. rewrite Hh, Hp. intros Hi Hr.
      apply lookup_app_Some in Hi. destruct Hi as [Hi | [Hge Hi]].
      - assert (Hr' : heap w !! i = Some r).
        { apply lookup_app_Some in Hr. destruct Hr as [Hr | [Hge' _]]; [exact Hr|].
          apply lookup_lt_Some in Hi. lia. }
        by eapply Hroot.
      - apply list_lookup_singleton_Some in Hi. destruct Hi as [Hi0 Hgg].
        rewrite <- Hgg, Hg.
        rewrite lookup_app_r in Hr by lia.
        apply list_lookup_singleton_Some in Hr. destruct Hr as [_ Hr].
        by rewrite <- Hr. }
    clear Hkeep.
    apply (Hnew {| g_backend := b; g_run := length (heap w); g_entry := entry;
                   g_root := moduleRoot; g_pc := Running |});
      [reflexivity | by destruct b | by destruct b].
  - destruct (Hruns j gj Hj) as (Hrunj & _). rewrite Hrunj in Hrj.
    apply consumeResult_Normal in Hcons. destruct Hcons as (_ & _ & _ & _ & Hr').
    intros i g r. unfold resolve, set_heap_pool; simpl. rewrite Hrunj.
    destruct (decide (j = i)) as [->|Hne].
    + rewrite !list_lookup_insert_eq by (try rewrite Hlen; by eapply lookup_lt_Some).
      intros Hg Hr; inversion Hg; inversion Hr; subst. simpl. rewrite Hr'.
      by eapply Hroot.
    + rewrite !list_lookup_insert_ne by done. apply Hroot.
  - assert (Hh : heap (exit j gj w) = heap w) by (unfold exit, decrement; by destruct (g_backend gj)).
    assert (Hp : pool (exit j gj w) = <[j := set_pc Exited gj]> (pool w))
      by (unfold exit, decrement; by destruct (g_backend gj)).
    intros i g r. rewrite Hh, Hp. destruct (decide (j = i)) as [->|Hne].
    + rewrite list_lookup_insert_eq by (by eapply lookup_lt_Some).
      intros Hg Hr; inversion Hg; subst. simpl. by eapply Hroot.
    + rewrite list_lookup_insert_ne by done. apply Hroot.
Qed.

Lemma Inv_root_reachable (w : World SW) :
  reachable (M := M) (JM := JM) w -> Inv_root w.
Proof.
  intros (w0 & Hw0 & Hs).
  assert (H0' : Inv w0 /\ Inv_root w0).
  { split; [by apply Inv_init|]. destruct Hw0 as (swa & swj & ca & cj & ->).
    intros i g r Hi. simpl in Hi. by rewrite lookup_nil in Hi. }
  clear Hw0. induction Hs as [w|w1 w2 w3 Hstep _ IH]; [by destruct H0'|].
  apply IH. destruct H0' as [HI HR]. split.
  - by eapply Inv_step.
  - by eapply Inv_root_step.
Qed.

Lemma reachable_steps (w w' : World SW) :
  reachable (M := M) (JM := JM) w -> rtc (step (M := M) (JM := JM)) w w' ->
  reachable (M := M) (JM := JM) w'.
Proof.
  intros (w0 & Hw0 & Hs) Hs'. exists w0. split; [exact Hw0 | by etransitivity].
Qed.

(** X10.  The run that [Launch] returns keeps its module root: in every
    world reached later, whatever was launched, resolved or stopped in
    between, [WasmModuleRoot] of that run is the module root given to
    [Launch], and the run is still served by the goroutine launched with
    it, for the same backend, input and module root. *)
Theorem X10_run_keeps_its_module_root (w w' : World SW) b entry moduleRoot :
  reachable (M := M) (JM := JM) w ->
  rtc (step (M := M) (JM := JM)) (fst (Launch b entry moduleRoot w)) w' ->
  exists r g,
    heap w' !! snd (Launch b entry moduleRoot w) = Some r /\
    valRun_WasmModuleRoot r = moduleRoot /\
    pool w' !! snd (Launch b entry moduleRoot w) = Some g /\
    g_backend g = b /\ g_entry g = entry /\ g_root g = moduleRoot /\
    g_run g = snd (Launch b entry moduleRoot w).
Proof.
  intros Hreach Hs.
  pose proof (Inv_reachable _ Hreach) as HI.
  destruct (Launch_run b entry moduleRoot w HI) as (Hp & _ & Hg). rewrite Hp.
  assert (Hreach1 : reachable (M := M) (JM := JM) (fst (Launch b entry moduleRoot w))).
  { eapply reachable_step; [exact Hreach | constructor]. }
  destruct (steps_same_task _ _ _ _ Hg Hs) as (g' & Hg' & Hb & Hr & He & Ho & _).
  simpl in Hb, Hr, He, Ho.
  pose proof (reachable_steps _ _ Hreach1 Hs) as Hreach'.
  pose proof (Inv_reachable _ Hreach') as (_ & Hruns & _).
  destruct (Hruns _ _ Hg') as (_ & r & Hhr & _).
  exists r, g'. split; [exact Hhr|]. split.
  - unfold valRun_WasmModuleRoot. rewrite (Inv_root_reachable _ Hreach' _ _ _ Hg' Hhr).
    exact Ho.
  - done.
Qed.

(** X11.  In every reachable world within the integer ranges of the code,
    the in-flight counter of a spawner is not negative, so [Room] never
    exceeds the limit (the configured one, or the number of CPUs when it is
    zero); [Room] equals the limit exactly when every launched run of that
    backend has completed, and it is negative exactly when more runs are in
    flight than the limit: [Launch] does not enforce the limit. *)
Theorem X11_room_never_exceeds_limit (b : Backend) (w : World SW) :
  reachable (M := M) (JM := JM) w ->
  Z.of_nat (launched b (pool w)) - Z.of_nat (completed b (pool w)) <= max_int32 ->
  min_int <= limit_of runtime_NumCPU b w
             - (Z.of_nat (launched b (pool w)) - Z.of_nat (completed b (pool w)))
          <= max_int ->
  0 <= count_of b w /\
  Room runtime_NumCPU b w <= limit_of runtime_NumCPU b w /\
  (Room runtime_NumCPU b w = limit_of runtime_NumCPU b w
     <-> launched b (pool w) = completed b (pool w)) /\
  (Room runtime_NumCPU b w < 0
     <-> limit_of runtime_NumCPU b w
         < Z.of_nat (launched b (pool w)) - Z.of_nat (completed b (pool w))).
Proof.
  intros Hreach Hfit Hint. pose proof (Inv_reachable _ Hreach) as (_ & _ & Hcnt).
  pose proof (completed_le_launched b (pool w)) as Hle.
  assert (Hc : count_of b w
               = Z.of_nat (launched b (pool w)) - Z.of_nat (completed b (pool w))).
  { rewrite Hcnt. apply wrap_int32_small. unfold max_int32 in Hfit. lia. }
  rewrite Room_eq, Hc, wrap_int_small by exact Hint. lia.
Qed.

(** X12.  The counter is an [int32] and [Launch] does not check it: a launch
    at the largest [int32] wraps the counter to -2^31, and [Room] then
    reports the limit plus 2^31. *)
Theorem X12_counter_wraps_at_int32_max (b : Backend) (w : World SW) entry moduleRoot :
  count_of b w = max_int32 ->
  min_int <= limit_of runtime_NumCPU b w + 2^31 <= max_int ->
  count_of b (fst (Launch b entry moduleRoot w)) = - 2^31 /\
  Room runtime_NumCPU b (fst (Launch b entry moduleRoot w))
    = limit_of runtime_NumCPU b w + 2^31.
Proof.
  intros Hc Hint.
  assert (Hc' : count_of b (fst (Launch b entry moduleRoot w)) = - 2^31).
  { rewrite count_of_Launch, Hc. reflexivity. }
  split; [exact Hc'|]. rewrite Room_eq, Hc'.
  assert (Hl : limit_of runtime_NumCPU b (fst (Launch b entry moduleRoot w))
               = limit_of runtime_NumCPU b w) by (by destruct b).
  rewrite Hl. rewrite wrap_int_small; lia.
Qed.

End SystemMore.

(** ** Scenarios of the further properties *)

Lemma mock_export_ok : mock_export empty_os = (inl tt, snd (mock_export empty_os)).
Proof. apply pair_eta_fst. vm_compute. reflexivity. Qed.


Lemma X2_sequencer_files_witness :
  mock_export empty_os = (inl tt, snd (mock_export empty_os)) /\
  os_files (snd (mock_export empty_os))
    !! sequencerPath "/root" "2026_01_02__15_04" DefaultArbitratorSpawnerConfig
         mock_entry_delayed 6
  = Some [100].
Proof.
  split; [exact mock_export_ok|].
  exact (proj1 (X2_sequencer_files "/root"
                  (fun _ => "/machines/latest") "2026_01_02__15_04"
                  (inl "/usr/bin/nitro") (fun _ => "/usr/bin") (fun _ => "0x00")
                  mock_order DefaultArbitratorSpawnerConfig mock_entry_delayed
                  mock_final 1%N empty_os _ mock_export_ok) 6).
Defined.


Lemma X4_script_layout_witness :
  mock_export empty_os = (inl tt, snd (mock_export empty_os)) /\
  os_files (snd (mock_export empty_os))
    !! scriptPath "/root" "2026_01_02__15_04" DefaultArbitratorSpawnerConfig
         mock_entry_delayed
  = Some (script_bytes
            (script_pieces (fun _ => "/machines/latest") (inl "/usr/bin/nitro")
               (fun _ => "/usr/bin") (fun _ => "0x00") mock_entry_delayed
               mock_final 1%N)).
Proof.
  split; [exact mock_export_ok|].
  exact (X4_script_layout "/root"
           (fun _ => "/machines/latest") "2026_01_02__15_04"
           (inl "/usr/bin/nitro") (fun _ => "/usr/bin") (fun _ => "0x00")
           mock_order DefaultArbitratorSpawnerConfig mock_entry_delayed
           mock_final 1%N empty_os _ mock_export_ok).
Defined.

Lemma X5_preimages_bin_round_trip_witness :
  (forall kv, kv ∈ mock_order (Preimages mock_entry_delayed) -> len (snd kv) < 2^64) /\
  mock_export empty_os = (inl tt, snd (mock_export empty_os)) /\
  exists content,
    os_files (snd (mock_export empty_os))
      !! preimagesPath "/root" "2026_01_02__15_04" DefaultArbitratorSpawnerConfig
           mock_entry_delayed
    = Some content /\
    decode_preimages content = Some [[120; 121; 122]].
Proof.
  assert (Hsmall : forall kv, kv ∈ mock_order (Preimages mock_entry_delayed) ->
                     len (snd kv) < 2^64).
  { intros kv Hkv.
    assert (Hl : mock_order (Preimages mock_entry_delayed) = [(2%N, [120; 121; 122])])
      by (vm_compute; reflexivity).
    rewrite Hl in Hkv. apply list_elem_of_singleton in Hkv. subst kv. reflexivity. }
  split; [exact Hsmall|]. split; [exact mock_export_ok|].
  exact (X5_preimages_bin_round_trip "/root"
           (fun _ => "/machines/latest") "2026_01_02__15_04"
           (inl "/usr/bin/nitro") (fun _ => "/usr/bin") (fun _ => "0x00")
           mock_order DefaultArbitratorSpawnerConfig mock_entry_delayed
           mock_final 1%N empty_os _ Hsmall mock_export_ok).
Defined.

Lemma X6_no_preimages_empty_file_witness :
  Preimages mock_entry_rejected = ∅ /\
  mock_export_empty empty_os = (inl tt, snd (mock_export_empty empty_os)) /\
  os_files (snd (mock_export_empty empty_os))
    !! preimagesPath "/root" "2026_01_02__15_04" DefaultArbitratorSpawnerConfig
         mock_entry_rejected
  = Some [].
Proof.
  assert (Hw : mock_export_empty empty_os = (inl tt, snd (mock_export_empty empty_os)))
    by (apply pair_eta_fst; vm_compute; reflexivity).
  split; [reflexivity|]. split; [exact Hw|].
  exact (X6_no_preimages_empty_file "/root"
           (fun _ => "/machines/latest") "2026_01_02__15_04"
           (inl "/usr/bin/nitro") (fun _ => "/usr/bin") (fun _ => "0x00")
           mock_order DefaultArbitratorSpawnerConfig mock_entry_rejected
           mock_final 1%N empty_os _ (reflexivity _) eq_refl Hw).
Defined.

Lemma X7_second_resolution_panics_witness :
  chanReady (marker mock_resolved_run) = true /\
  exists r',
    valRun_consumeResult GoGlobalState_zero (Some mock_step_fault) mock_resolved_run
    = Panic "close of closed channel" r' /\
    valRun_Ready r' = true /\
    valRun_Result r' = (GoGlobalState_zero, Some mock_step_fault) /\
    valRun_WasmModuleRoot r' = 1%N.
Proof.
  split; [reflexivity|].
  exact (X7_second_resolution_panics GoGlobalState_zero (Some mock_step_fault)
           mock_resolved_run eq_refl).
Defined.

Lemma X8_WaitReady_on_resolved_run_witness :
  valRun_consumeResult mock_final None (NewvalRun 1%N) = Normal mock_resolved_run /\
  readyMarker_WaitReady (marker mock_resolved_run) mock_cancelled None
    (marker mock_resolved_run) /\
  readyMarker_WaitReady (marker mock_resolved_run) mock_cancelled
    (ctx_Err mock_cancelled) (marker mock_resolved_run).
Proof.
  split; [reflexivity|].
  destruct (X8_WaitReady_on_resolved_run mock_final None (NewvalRun 1%N)
              mock_resolved_run mock_cancelled eq_refl)
    as (Hwait & _ & _ & _ & Hdone).
  split; [exact Hwait | exact (Hdone eq_refl)].
Defined.


Lemma X10_run_keeps_its_module_root_witness :
  reachable (M := Mock) (JM := unit) (mock_launched 1%N) /\
  exists r g,
    heap (fst (Launch Jit mock_entry_rejected 2%N (mock_launched 1%N))) !! 1%nat
      = Some r /\
    valRun_WasmModuleRoot r = 2%N /\
    pool (fst (Launch Jit mock_entry_rejected 2%N (mock_launched 1%N))) !! 1%nat
      = Some g /\
    g_backend g = Jit /\ g_entry g = mock_entry_rejected /\ g_root g = 2%N /\
    g_run g = 1%nat.
Proof.
  split; [apply mock_launched_reachable|].
  exact (X10_run_keeps_its_module_root (M := Mock) (JM := unit) (mock_launched 1%N)
           (fst (Launch Jit mock_entry_rejected 2%N (mock_launched 1%N)))
           Jit mock_entry_rejected 2%N (mock_launched_reachable 1%N) (rtc_refl _ _)).
Defined.

Lemma X11_room_never_exceeds_limit_witness :
  reachable (M := Mock) (JM := unit) mock_overloaded /\
  0 <= count_of Arbitrator mock_overloaded /\
  Room 8 Arbitrator mock_overloaded <= limit_of 8 Arbitrator mock_overloaded /\
  (Room 8 Arbitrator mock_overloaded < 0
     <-> limit_of 8 Arbitrator mock_overloaded
         < Z.of_nat (launched Arbitrator (pool mock_overloaded))
           - Z.of_nat (completed Arbitrator (pool mock_overloaded))).
Proof.
  split; [apply mock_overloaded_reachable|].
  assert (Hfit : Z.of_nat (launched Arbitrator (pool mock_overloaded))
                 - Z.of_nat (completed Arbitrator (pool mock_overloaded)) <= max_int32)
    by (vm_compute; discriminate).
  assert (Hint : min_int <= limit_of 8 Arbitrator mock_overloaded
                   - (Z.of_nat (launched Arbitrator (pool mock_overloaded))
                      - Z.of_nat (completed Arbitrator (pool mock_overloaded)))
                 <= max_int)
    by (split; vm_compute; discriminate).
  destruct (X11_room_never_exceeds_limit (M := Mock) (JM := unit) 8 Arbitrator
              mock_overloaded mock_overloaded_reachable Hfit Hint)
    as (Hcount & Hroom & _ & Hneg).
  split; [exact Hcount|]. split; [exact Hroom | exact Hneg].
Defined.

Lemma X12_counter_wraps_at_int32_max_witness :
  count_of Arbitrator mock_saturated = max_int32 /\
  count_of Arbitrator (fst (Launch Arbitrator mock_entry 1%N mock_saturated)) = - 2^31 /\
  Room 8 Arbitrator (fst (Launch Arbitrator mock_entry 1%N mock_saturated))
  = limit_of 8 Arbitrator mock_saturated + 2^31.
Proof.
  split; [reflexivity|].
  assert (Hint : min_int <= limit_of 8 Arbitrator mock_saturated + 2^31 <= max_int)
    by (split; vm_compute; discriminate).
  exact (X12_counter_wraps_at_int32_max 8 Arbitrator mock_saturated mock_entry 1%N
           eq_refl Hint).
Defined.

Lemma X13_failed_feed_is_never_stepped_witness :
  GetHostIoMachine (M := Mock) context_Background 5%N = inl (mock_machine 5%N) /\
  ArbitratorSpawner_loadEntryToMachine context_Background mock_entry (mock_cloned 5%N)
  = (Some (fmt_Errorf "error while setting global state for proving"
             (errors_New "bad state")),
     snd (ArbitratorSpawner_loadEntryToMachine context_Background mock_entry
            (mock_cloned 5%N))) /\
  ArbitratorSpawner_execute (M := Mock) 0 context_Background mock_entry 5%N
  = Some ((GoGlobalState_zero,
           Some (fmt_Errorf "error while setting global state for proving"
                   (errors_New "bad state"))),
          snd (snd (ArbitratorSpawner_loadEntryToMachine context_Background mock_entry
                      (mock_cloned 5%N))) ++ [EvCall CDestroy None]).
Proof.
  split; [reflexivity|].
  assert (Hload : ArbitratorSpawner_loadEntryToMachine context_Background mock_entry
                    (mock_cloned 5%N)
                  = (Some (fmt_Errorf "error while setting global state for proving"
                             (errors_New "bad state")),
                     snd (ArbitratorSpawner_loadEntryToMachine context_Background
                            mock_entry (mock_cloned 5%N))))
    by reflexivity.
  split; [exact Hload|].
  exact (proj1 (X13_failed_feed_is_never_stepped (M := Mock) context_Background
                  mock_entry 5%N (mock_machine 5%N) _ _ eq_refl Hload O)).
Defined.

Lemma X14_halted_machine_is_not_stepped_witness :
  GetHostIoMachine (M := Mock) context_Background 1%N = inl (mock_machine 1%N) /\
  IsRunning (fst (snd (ArbitratorSpawner_loadEntryToMachine context_Background
                         mock_entry (mock_cloned 1%N)))) = false /\
  ArbitratorSpawner_execute (M := Mock) 0 context_Background mock_entry 1%N
  = Some ((mock_final, None),
          snd (snd (ArbitratorSpawner_loadEntryToMachine context_Background mock_entry
                      (mock_cloned 1%N))) ++ [EvCall CDestroy None]).
Proof.
  split; [reflexivity|]. split; [reflexivity|].
  assert (Hload : ArbitratorSpawner_loadEntryToMachine context_Background mock_entry
                    (mock_cloned 1%N)
                  = (None,
                     snd (ArbitratorSpawner_loadEntryToMachine context_Background
                            mock_entry (mock_cloned 1%N))))
    by reflexivity.
  exact (X14_halted_machine_is_not_stepped (M := Mock) context_Background
           mock_entry 1%N (mock_machine 1%N) _ eq_refl Hload eq_refl O).
Defined.

Lemma X15_loop_steps_and_debug_lines_witness :
  stepN 3 context_Background (mock_machine 8%N)
  = Some (mk_set_steps [] (mock_machine 8%N)) /\
  stepLoop 3 context_Background (Z.of_nat 0 * stepCount) (mock_machine 8%N, [])
  = Some (LoopStopped,
          (mk_set_steps [] (mock_machine 8%N),
           [EvCall (CStep stepCount) None;
            EvCall (CStep stepCount) None; EvLogDebug (1 * stepCount);
            EvCall (CStep stepCount) None; EvLogDebug (2 * stepCount)])).
Proof.
  split; [reflexivity|].
  assert (Hsmall : Z.of_nat (0 + 3) * stepCount < 2^64) by reflexivity.
  exact (X15_loop_steps_and_debug_lines (M := Mock) context_Background 3 O 3%nat
           (mock_machine 8%N) (mk_set_steps [] (mock_machine 8%N)) []
           eq_refl eq_refl Hsmall (le_n 3)).
Defined.

Lemma X16_CreateExecutionBackend_results_witness :
  GetZeroStepMachine (M := Mock) context_Background 1%N = inl (mock_machine 1%N) /\
  exists tr,
    ArbitratorSpawner_CreateExecutionBackend (M := Mock) (B := Mock) 4
      context_Background 1%N mock_entry
    = ((Some (Freeze (fst (snd (ArbitratorSpawner_loadEntryToMachine context_Background
                                  mock_entry (mock_cloned 1%N))))), None), tr) /\
    count_call CClone tr = 1%nat /\ count_call CFreeze tr = 1%nat /\
    count_call CDestroy tr = O /\ step_results tr = [] /\
    exists e, last tr = Some (EvCall (CNewExecutionChallengeBackend 4) e).
Proof.
  split; [reflexivity|].
  assert (Hload : ArbitratorSpawner_loadEntryToMachine context_Background mock_entry
                    (mock_cloned 1%N)
                  = (None,
                     snd (ArbitratorSpawner_loadEntryToMachine context_Background
                            mock_entry (mock_cloned 1%N))))
    by reflexivity.
  exact (proj2 (X16_CreateExecutionBackend_results (M := Mock) (B := Mock) 4
                  context_Background 1%N mock_entry)
               (mock_machine 1%N) _ eq_refl Hload).
Defined.
